(** * buildspec: trace reduction, guard lowering and speculative assembly

    A shallow embedding of [cs6120/task 12/buildspec.ts].  The script reads a
    recorded trace (one JSON instruction per line) and a Bril program, folds
    and prunes the trace ([optimizeTrace]), lowers it to a guarded sequence
    plus a queue of deferred prints, and splices the result in front of the
    original body of [main].

    JavaScript numbers are IEEE-754 binary64, which is what Rocq's primitive
    [float] is; maps and sets are stdpp's [gmap] and [gset].  The script also
    defines [traceToGuarded], which [main] never calls: [main] has its own
    lowering loop; both are embedded, and so are the printer [brilToText]
    and the head of [main] that tests the arguments and parses the trace
    lines. *)

From Stdlib Require Import Floats DecimalString DecimalNat.
From stdpp Require Import gmap strings list.

Open Scope string_scope.
Open Scope list_scope.

(** ** Data model

    [bril-ts/bril.ts] only declares types; the records below carry exactly the
    fields [buildspec.ts] reads or writes.  A field that a JavaScript object
    may lack is an [option]. *)

(** A Bril type: a primitive name such as [int] or [bool], or a
    parameterised type such as [ptr<int>]. *)
Inductive Ty : Type :=
  | TPrim (name : string)
  | TParam (ctor : string) (arg : Ty).

(** A literal as [JSON.parse] delivers it. *)
Inductive Value : Type :=
  | VNum (n : float)
  | VBool (b : bool)
  | VStr (s : string).

Record Operation : Type := mkOp {
  op : string;
  dest : option string;
  type : option Ty;
  args : option (list string);
  value : option Value;
  labels : option (list string);
  funcs : option (list string)
}.

Inductive Instr : Type :=
  | Label (label : string)
  | Op (o : Operation).

Record Arg : Type := mkArg { arg_name : string; arg_type : Ty }.

Record Func : Type := mkFunc {
  fn_name : string;
  fn_args : option (list Arg);
  fn_type : option Ty;
  fn_instrs : option (list Instr)
}.

Record Program : Type := mkProgram { functions : list Func }.

(** ** JavaScript idioms *)

(** [s] used as a condition: the empty string is falsy. *)
Definition truthy (s : option string) : option string :=
  match s with
  | Some "" => None
  | other => other
  end.

(** [typeof v], with [None] for a missing field ([undefined]). *)
Definition typeof (v : option Value) : string :=
  match v with
  | None => "undefined"
  | Some (VNum _) => "number"
  | Some (VBool _) => "boolean"
  | Some (VStr _) => "string"
  end.

(** The decimal rendering of a counter inside a template string. *)
Definition showNat (n : nat) : string := NilZero.string_of_uint (Nat.to_uint n).

(** A [Map<string, any>]: a key may be bound to [undefined]. *)
Abbreviation Env := (gmap string (option Value)).

(** [env.get(x)]; [x] itself is [undefined] when the argument is missing. *)
Definition envGet (env : Env) (x : option string) : option Value :=
  match x with
  | Some k => match env !! k with Some v => v | None => None end
  | None => None
  end.

(** ** The trace reducer: [optimizeTrace] *)

Definition isArith (o : string) : bool :=
  String.eqb o "add" || String.eqb o "sub" || String.eqb o "mul".

Definition isPure (o : string) : bool :=
  String.eqb o "const" || String.eqb o "add" || String.eqb o "sub"
  || String.eqb o "mul".

(** The folded value: the three-way branch on [instr.op]. *)
Definition arith (o : string) (a b : float) : float :=
  if String.eqb o "add" then (a + b)%float
  else if String.eqb o "sub" then (a - b)%float
  else (a * b)%float.

(** The object literal pushed for a folded instruction. *)
Definition foldedConst (d : string) (t : option Ty) (val : float) : Operation :=
  {| op := "const"; dest := Some d;
     type := Some (match t with Some t' => t' | None => TPrim "int" end);
     args := None; value := Some (VNum val); labels := None; funcs := None |}.

Section Reducer.

(** [Number(s)] on a string is the engine's numeric-literal parser; the
    reducer is parametric in it. *)
Variable StringToNumber : string → float.

Definition Number (v : Value) : float :=
  match v with
  | VNum n => n
  | VBool true => 1%float
  | VBool false => 0%float
  | VStr s => StringToNumber s
  end.

(** One iteration of the first loop, on the pair ([env], [out]). *)
Definition foldStep (st : Env * list Instr) (instr : Instr) : Env * list Instr :=
  let '(env, out) := st in
  match instr with
  | Label _ => st
  | Op i =>
      match String.eqb (op i) "const", dest i with
      | true, Some d => (<[d := value i]> env, out ++ [instr])
      | _, _ =>
          match isArith (op i), args i, truthy (dest i) with
          | true, Some xs, Some d =>
              match envGet env (xs !! 0%nat), envGet env (xs !! 1%nat) with
              | Some vx, Some vy =>
                  let val := arith (op i) (Number vx) (Number vy) in
                  (<[d := Some (VNum val)]> env,
                   out ++ [Op (foldedConst d (type i) val)])
              | _, _ => (env, out ++ [instr])
              end
          | _, _, _ => (env, out ++ [instr])
          end
      end
  end.

Definition foldPass (instrs : list Instr) : Env * list Instr :=
  fold_left foldStep instrs (∅, []).

(** The second loop: every argument name of every operation. *)
Definition useStep (used : gset string) (instr : Instr) : gset string :=
  match instr with
  | Op i =>
      match args i with
      | Some xs => fold_left (λ u a, {[a]} ∪ u) xs used
      | None => used
      end
  | Label _ => used
  end.

Definition collectUsed (out : list Instr) : gset string :=
  fold_left useStep out ∅.

(** The predicate handed to [out.filter]. *)
Definition dceKeep (used : gset string) (instr : Instr) : bool :=
  match instr with
  | Op i =>
      match truthy (dest i) with
      | Some d =>
          if bool_decide (d ∈ used) then true else negb (isPure (op i))
      | None => true
      end
  | Label _ => true
  end.

Definition optimizeTrace (instrs : list Instr) : list Instr :=
  let out := (foldPass instrs).2 in
  let used := collectUsed out in
  List.filter (dceKeep used) out.

End Reducer.

(** ** Outcomes of a run

    The script either prints a program, dies on an uncaught exception, or
    leaves through [Deno.exit]. *)
Inductive Outcome (A : Type) : Type :=
  | Done (a : A)
  | Throw (msg : string)
  | Exit (code : nat).

Arguments Done {A} a.
Arguments Throw {A} msg.
Arguments Exit {A} code.

(** ** Guard lowering: the main loop of [main] over [optimized] *)

Definition bailLabel : string := ".bail".

(** [{ op }] with no other field. *)
Definition bareOp (o : string) : Operation :=
  {| op := o; dest := None; type := None; args := None; value := None;
     labels := None; funcs := None |}.

(** [{ op: "const", dest, type: "bool", value: b }]. *)
Definition constBool (d : string) (b : bool) : Operation :=
  {| op := "const"; dest := Some d; type := Some (TPrim "bool"); args := None;
     value := Some (VBool b); labels := None; funcs := None |}.

(** [{ op: "guard", args: [x], labels: [bailLabel] }]. *)
Definition guardOn (x : string) : Operation :=
  {| op := "guard"; dest := None; type := None; args := Some [x];
     value := None; labels := Some [bailLabel]; funcs := None |}.

(** The expected-value constant synthesised for a printed argument. *)
Definition expConst (constName : string) (val : option Value) : Operation :=
  {| op := "const"; dest := Some constName;
     type := Some (TPrim (if String.eqb (typeof val) "boolean" then "bool" else "int"));
     args := None; value := val; labels := None; funcs := None |}.

(** The comparison of the live argument with the expected constant. *)
Definition cmpInstr (val : option Value) (cmpName a constName : string) : Operation :=
  {| op := if String.eqb (typeof val) "string" then "ceq" else "eq";
     dest := Some cmpName; type := None; args := Some [a; constName];
     value := None; labels := None; funcs := None |}.

(** [constMap]: the last [const] of each destination in the reduced trace. *)
Definition constMapStep (constMap : Env) (ins : Instr) : Env :=
  match ins with
  | Op i =>
      match String.eqb (op i) "const", truthy (dest i) with
      | true, Some d => <[d := value i]> constMap
      | _, _ => constMap
      end
  | Label _ => constMap
  end.

Definition buildConstMap (optimized : list Instr) : Env :=
  fold_left constMapStep optimized ∅.

(** What the loop mutates: the two output arrays and the name counter. *)
Record Lowering : Type := mkLowering {
  guarded : list Instr;
  postCommitPrints : list Instr;
  synthCounter : nat
}.

Definition pushGuarded (st : Lowering) (new : list Instr) : Lowering :=
  {| guarded := guarded st ++ new;
     postCommitPrints := postCommitPrints st;
     synthCounter := synthCounter st |}.

(** The pair emitted for an unconditional bail; it consumes one counter. *)
Definition forceBail (st : Lowering) : Lowering :=
  let falseName := "_spec_false_" +:+ showNat (synthCounter st) in
  {| guarded := guarded st ++ [Op (constBool falseName false); Op (guardOn falseName)];
     postCommitPrints := postCommitPrints st;
     synthCounter := S (synthCounter st) |}.

(** The triple emitted for a printed argument with a recorded value. *)
Definition checkArg (val : option Value) (a : string) (st : Lowering) : Lowering :=
  let constName := "_spec_exp_" +:+ showNat (synthCounter st) in
  let cmpName := "_spec_cmp_" +:+ showNat (S (synthCounter st)) in
  {| guarded := guarded st ++ [Op (expConst constName val);
                               Op (cmpInstr val cmpName a constName);
                               Op (guardOn cmpName)];
     postCommitPrints := postCommitPrints st;
     synthCounter := S (S (synthCounter st)) |}.

(** One iteration of the inner loop over a print's arguments; the boolean
    is [willAlwaysBail].  [constMap !! a] is [Some val] exactly when
    [constMap.has(a)], and [val] is then [constMap.get(a)]. *)
Definition printArgStep (constMap : Env) (acc : Lowering * bool) (a : string)
    : Lowering * bool :=
  let '(st, willAlwaysBail) := acc in
  match constMap !! a with
  | Some val => (checkArg val a st, willAlwaysBail)
  | None => (forceBail st, true)
  end.

Definition lowerPrint (constMap : Env) (ins : Operation) (st : Lowering) : Lowering :=
  let xs := match args ins with Some xs => xs | None => [] end in
  let '(st', willAlwaysBail) := fold_left (printArgStep constMap) xs (st, false) in
  if willAlwaysBail then st'
  else {| guarded := guarded st';
          postCommitPrints := postCommitPrints st' ++ [Op ins];
          synthCounter := synthCounter st' |}.

(** [ins.args?.[0]] tested for truthiness. *)
Definition condVarOf (ins : Operation) : option string :=
  truthy (match args ins with Some xs => xs !! 0%nat | None => None end).

Definition isCallRet (o : string) : bool := String.eqb o "call" || String.eqb o "ret".

(** The loop itself.  [break] ends it with what has been emitted so far;
    the [throw] ends the run. *)
Fixpoint lowerLoop (constMap : Env) (optimized : list Instr) (st : Lowering)
    : Outcome Lowering :=
  match optimized with
  | [] => Done st
  | Label _ :: rest => lowerLoop constMap rest st
  | Op ins :: rest =>
      if String.eqb (op ins) "jmp" then lowerLoop constMap rest st
      else if isCallRet (op ins) then Done (forceBail st)
      else if String.eqb (op ins) "br" then
        match condVarOf ins with
        | None => Throw "br in trace without condition arg"
        | Some condVar => lowerLoop constMap rest (pushGuarded st [Op (guardOn condVar)])
        end
      else if String.eqb (op ins) "print" then
        lowerLoop constMap rest (lowerPrint constMap ins st)
      else lowerLoop constMap rest (pushGuarded st [Op ins])
  end.

Definition initLowering : Lowering :=
  {| guarded := []; postCommitPrints := []; synthCounter := 0 |}.

(** ** The speculative assembler: the construction of [newInstrs] *)

Definition isGuard (ins : Instr) : bool :=
  match ins with
  | Op o => String.eqb (op o) "guard"
  | Label _ => false
  end.

(** [guarded.some(...)]. *)
Definition hasGuard (g : list Instr) : bool := existsb isGuard g.

(** The test of the backward scan: a truthy [dest] and [type === "bool"]. *)
Definition boolDest (ins : Instr) : option string :=
  match ins with
  | Op o =>
      match truthy (dest o), type o with
      | Some d, Some (TPrim "bool") => Some d
      | _, _ => None
      end
  | Label _ => None
  end.

(** The scan visits indices [length - 1] down to [0]; here the list is
    already reversed. *)
Fixpoint scanDown (l : list Instr) : option string :=
  match l with
  | [] => None
  | ins :: rest =>
      match boolDest ins with
      | Some d => Some d
      | None => scanDown rest
      end
  end.

Definition boolVar (g : list Instr) : option string := scanDown (rev g).

Definition guardVar : string := "_spec_true_guard".

(** What is pushed between the guarded sequence and [commit]. *)
Definition gatingGuard (g : list Instr) : list Instr :=
  if hasGuard g then []
  else match boolVar g with
       | Some b => [Op (guardOn b)]
       | None => [Op (constBool guardVar true); Op (guardOn guardVar)]
       end.

Definition endsInRet (body : list Instr) : bool :=
  match last body with
  | Some (Op o) => String.eqb (op o) "ret"
  | _ => false
  end.

Definition fallbackInstrs (fallbackBody : list Instr) : list Instr :=
  if endsInRet fallbackBody then fallbackBody
  else fallbackBody ++ [Op (bareOp "ret")].

Definition newInstrs (g prints fallbackBody : list Instr) : list Instr :=
  [Op (bareOp "speculate")] ++ g ++ gatingGuard g ++ [Op (bareOp "commit")]
  ++ prints ++ [Op (bareOp "ret")] ++ [Label bailLabel]
  ++ fallbackInstrs fallbackBody.

(** ** The whole run *)

(** [functions.findIndex(f => f.name === "main")]. *)
Fixpoint findIndex (p : Func → bool) (fs : list Func) : option nat :=
  match fs with
  | [] => None
  | f :: rest => if p f then Some 0 else S <$> findIndex p rest
  end.

(** [{ ...origMain, instrs }]. *)
Definition withInstrs (origMain : Func) (body : list Instr) : Func :=
  {| fn_name := fn_name origMain; fn_args := fn_args origMain;
     fn_type := fn_type origMain; fn_instrs := Some body |}.

(** [validateBrilProgram]: every function needs an instruction array.  Names
    are strings and instructions are labels or operations by typing.  The
    message of the exception it raises carries the text of the function; the
    run below keeps its fixed part. *)
Definition validateBrilProgram (prog : Program) : bool :=
  forallb (λ f, match fn_instrs f with Some _ => true | None => false end)
          (functions prog).

Section Run.

Variable StringToNumber : string → float.

(** [main], from the parsed trace lines and the parsed program to the
    program handed to the printer. *)
Definition main (rawTrace : list Instr) (prog : Program) : Outcome Program :=
  match rawTrace with
  | [] => Exit 2
  | _ =>
      let optimized := optimizeTrace StringToNumber rawTrace in
      let constMap := buildConstMap optimized in
      match lowerLoop constMap optimized initLowering with
      | Throw msg => Throw msg
      | Exit c => Exit c
      | Done low =>
          match findIndex (λ f, String.eqb (fn_name f) "main") (functions prog) with
          | None => Exit 1
          | Some mainIdx =>
              match functions prog !! mainIdx with
              | None => Throw "TypeError: cannot read properties of undefined"
              | Some origMain =>
                  match fn_instrs origMain with
                  | None => Throw "TypeError: fallbackBody is not iterable"
                  | Some fallbackBody =>
                      let newMain :=
                        withInstrs origMain
                          (newInstrs (guarded low) (postCommitPrints low) fallbackBody) in
                      let prog' :=
                        {| functions := <[mainIdx := newMain]> (functions prog) |} in
                      if validateBrilProgram prog' then Done prog'
                      else Throw "Invalid function in Bril program"
                  end
              end
          end
      end
  end.

End Run.

(** ** Notions used in the statements *)

(** The value the fold pass reads for operand [k] of [i]: [env.get(args[k])],
    [None] when the instruction has no such argument, when the name is not
    in the environment, or when it is bound to [undefined]. *)
Definition operand (env : Env) (i : Operation) (k : nat) : option Value :=
  envGet env (match args i with Some xs => xs !! k | None => None end).

(** [d] occurs as an argument of some operation of [out]. *)
Definition usedIn (out : list Instr) (d : string) : Prop :=
  ∃ j xs, Op j ∈ out ∧ args j = Some xs ∧ d ∈ xs.

Definition isOp (ins : Instr) : bool :=
  match ins with
  | Op _ => true
  | Label _ => false
  end.

(** The opcodes the reducer must never drop. *)
Definition isEffect (ins : Instr) : bool :=
  match ins with
  | Op o =>
      String.eqb (op o) "print" || String.eqb (op o) "call"
      || String.eqb (op o) "ret" || String.eqb (op o) "guard"
      || String.eqb (op o) "speculate" || String.eqb (op o) "commit"
  | Label _ => false
  end.

(** The lowering loop leaves at [ins]: a call or a ret. *)
Definition isStop (ins : Instr) : bool :=
  match ins with
  | Op o => isCallRet (op o)
  | Label _ => false
  end.

(** A [br] whose first argument is missing or empty. *)
Definition isBadBr (ins : Instr) : bool :=
  match ins with
  | Op o =>
      String.eqb (op o) "br"
      && match condVarOf o with Some _ => false | None => true end
  | Label _ => false
  end.

(** The lowering loop, started on [pre], runs to the end of [pre]: it meets
    no call or ret, and no br without a condition. *)
Definition runsThrough (pre : list Instr) : Prop :=
  Forall (λ x, isStop x = false) pre ∧ Forall (λ x, isBadBr x = false) pre.

(** The three instructions that check a printed argument [a] against the
    recorded [val], named from counter [n]. *)
Definition argCheck (val : option Value) (a : string) (n : nat) : list Instr :=
  [Op {| op := "const"; dest := Some ("_spec_exp_" +:+ showNat n);
         type := Some (TPrim (match val with Some (VBool _) => "bool" | _ => "int" end));
         args := None; value := val; labels := None; funcs := None |};
   Op {| op := match val with Some (VStr _) => "ceq" | _ => "eq" end;
         dest := Some ("_spec_cmp_" +:+ showNat (S n)); type := None;
         args := Some [a; "_spec_exp_" +:+ showNat n];
         value := None; labels := None; funcs := None |};
   Op {| op := "guard"; dest := None; type := None;
         args := Some ["_spec_cmp_" +:+ showNat (S n)];
         value := None; labels := Some [".bail"]; funcs := None |}].

(** The pair that forces a bail, named from counter [n]. *)
Definition bailPair (n : nat) : list Instr :=
  [Op {| op := "const"; dest := Some ("_spec_false_" +:+ showNat n);
         type := Some (TPrim "bool"); args := None;
         value := Some (VBool false); labels := None; funcs := None |};
   Op {| op := "guard"; dest := None; type := None;
         args := Some ["_spec_false_" +:+ showNat n];
         value := None; labels := Some [".bail"]; funcs := None |}].

(** The arguments of a print, [ins.args || []]. *)
Definition printedArgs (ins : Operation) : list string := default [] (args ins).

(** ** Sample instructions and traces *)

Definition constI (d : string) (n : float) : Instr :=
  Op {| op := "const"; dest := Some d; type := Some (TPrim "int"); args := None;
        value := Some (VNum n); labels := None; funcs := None |}.

Definition addI (d x y : string) : Instr :=
  Op {| op := "add"; dest := Some d; type := Some (TPrim "int");
        args := Some [x; y]; value := None; labels := None; funcs := None |}.

Definition printI (xs : list string) : Instr :=
  Op {| op := "print"; dest := None; type := None; args := Some xs;
        value := None; labels := None; funcs := None |}.

Definition callI (f : string) : Instr :=
  Op {| op := "call"; dest := None; type := None; args := Some [];
        value := None; labels := None; funcs := Some [f] |}.

Definition brI (xs : list string) : Instr :=
  Op {| op := "br"; dest := None; type := None; args := Some xs;
        value := None; labels := Some ["then"; "else"]; funcs := None |}.

(** The trace of the scenario: [a = 3; b = 4; c = a + b; print c]. *)
Definition scenario : list Instr :=
  [constI "a" 3; constI "b" 4; addI "c" "a" "b"; printI ["c"]].

(** A trace that prints a recorded constant after a call. *)
Definition printAfterCall : list Instr :=
  [constI "x" 1; callI "f"; printI ["x"]].

(** A trace with two branches after a call, the second malformed. *)
Definition brAfterCall : list Instr :=
  [callI "f"; brI ["c"]; brI []].


Definition retI : Instr := Op (bareOp "ret").

(** A program with a helper before [main]; the body of [main] does not end
    in a ret. *)
Definition sampleProgram : Program :=
  {| functions :=
       [ {| fn_name := "helper"; fn_args := Some [mkArg "n" (TPrim "int")];
            fn_type := Some (TPrim "int");
            fn_instrs := Some [Op {| op := "ret"; dest := None; type := None;
                                     args := Some ["n"]; value := None;
                                     labels := None; funcs := None |}] |};
         {| fn_name := "main"; fn_args := None; fn_type := None;
            fn_instrs := Some scenario |} ] |}.

(** The code the assembler puts before the bail label. *)
Definition fastPath (g prints : list Instr) : list Instr :=
  [Op (bareOp "speculate")] ++ g ++ gatingGuard g ++ [Op (bareOp "commit")]
  ++ prints ++ [Op (bareOp "ret")].

(** The test of [findIndex] in [main]. *)
Definition isMain (f : Func) : bool := String.eqb (fn_name f) "main".

(** A reading of strings as numbers that accepts none ([NaN] throughout);
    the sample traces hold no string literal. *)
Definition noNumber : string → float := λ _, nan.

(** What the scenario is lowered to: the folded constant, then the check of
    the printed [c] against the recorded 7. *)
Definition scenarioGuarded : list Instr :=
  [ constI "c" 7;
    Op {| op := "const"; dest := Some "_spec_exp_0"; type := Some (TPrim "int");
          args := None; value := Some (VNum 7); labels := None; funcs := None |};
    Op {| op := "eq"; dest := Some "_spec_cmp_1"; type := None;
          args := Some ["c"; "_spec_exp_0"]; value := None; labels := None;
          funcs := None |};
    Op {| op := "guard"; dest := None; type := None; args := Some ["_spec_cmp_1"];
          value := None; labels := Some [".bail"]; funcs := None |} ].

(** The body assembled for the scenario in front of [fallbackBody]. *)
Definition scenarioBody (fallbackBody : list Instr) : list Instr :=
  [Op (bareOp "speculate")] ++ scenarioGuarded
  ++ [Op (bareOp "commit"); printI ["c"]; Op (bareOp "ret"); Label ".bail"]
  ++ fallbackBody.

(** The program the run on [scenario] and [sampleProgram] prints. *)
Definition sampleOutput : Program :=
  {| functions :=
       [ {| fn_name := "helper"; fn_args := Some [mkArg "n" (TPrim "int")];
            fn_type := Some (TPrim "int");
            fn_instrs := Some [Op {| op := "ret"; dest := None; type := None;
                                     args := Some ["n"]; value := None;
                                     labels := None; funcs := None |}] |};
         {| fn_name := "main"; fn_args := None; fn_type := None;
            fn_instrs := Some (scenarioBody (scenario ++ [Op (bareOp "ret")])) |} ] |}.

(** ** [traceToGuarded]

    The stand-alone conversion of branches to guards.  [main] does not call
    it; it is embedded for what it shares with the loop of [main]. *)

(** [{ op: "guard", args: [condVar], labels: [bailLabel] }], with the label
    the function is given. *)
Definition guardInstr (condVar bail : string) : Operation :=
  {| op := "guard"; dest := None; type := None; args := Some [condVar];
     value := None; labels := Some [bail]; funcs := None |}.

(** The loop of [traceToGuarded] on the array [out]. *)
Fixpoint traceToGuardedLoop (trace : list Instr) (bail : string) (out : list Instr)
    : Outcome (list Instr) :=
  match trace with
  | [] => Done out
  | Label _ :: rest => traceToGuardedLoop rest bail out
  | Op instr :: rest =>
      if String.eqb (op instr) "jmp" then traceToGuardedLoop rest bail out
      else if String.eqb (op instr) "br" then
        match condVarOf instr with
        | None => Throw "br in trace without condition arg"
        | Some condVar =>
            traceToGuardedLoop rest bail (out ++ [Op (guardInstr condVar bail)])
        end
      else traceToGuardedLoop rest bail (out ++ [Op instr])
  end.

Definition traceToGuarded (trace : list Instr) (bail : string) : Outcome (list Instr) :=
  traceToGuardedLoop trace bail [].

(** ** Notions used in the further properties *)

(** An operation that [traceToGuarded] copies or rewrites: any operation
    but a jmp. *)
Definition isCarried (ins : Instr) : bool :=
  match ins with
  | Op o => negb (String.eqb (op o) "jmp")
  | Label _ => false
  end.

(** How [traceToGuarded] relates an operation it carries to what it emits. *)
Definition guardedAs (bail : string) (x y : Instr) : Prop :=
  match x with
  | Op o =>
      if String.eqb (op o) "br"
      then ∃ c, condVarOf o = Some c ∧ y = Op (guardInstr c bail)
      else y = x
  | Label _ => False
  end.

(** An operation the loop of [main] copies as it is: its opcode is none of
    jmp, call, ret, br, print. *)
Definition isKept (ins : Instr) : bool :=
  match ins with
  | Op o =>
      negb (String.eqb (op o) "jmp" || isCallRet (op o)
            || String.eqb (op o) "br" || String.eqb (op o) "print")
  | Label _ => false
  end.

Definition isPrint (ins : Instr) : bool :=
  match ins with
  | Op o => String.eqb (op o) "print"
  | Label _ => false
  end.

(** [postCommitPrints.push(ins)]. *)
Definition queuePrint (st : Lowering) (ins : Operation) : Lowering :=
  {| guarded := guarded st;
     postCommitPrints := postCommitPrints st ++ [Op ins];
     synthCounter := synthCounter st |}.

(** The destinations of a sequence that lie in the name space of the
    synthesised variables, in order. *)
Definition synthDests (g : list Instr) : list string :=
  omap (λ ins, match ins with
               | Op o => match dest o with
                         | Some d => if String.prefix "_spec_" d then Some d else None
                         | None => None
                         end
               | Label _ => None
               end) g.

(** [l] holds one name per counter value from [n] up to [m], in order, each
    from one of the three families of synthesised names. *)
Inductive counted : nat → list string → nat → Prop :=
  | counted_nil n : counted n [] n
  | counted_cons fam n l m :
      fam ∈ ["_spec_false_"; "_spec_exp_"; "_spec_cmp_"] →
      counted (S n) l m →
      counted n ((fam +:+ showNat n) :: l) m.

(** The part of the trace the loop of [main] works through: what precedes
    the first call or ret. *)
Fixpoint reached (trace : list Instr) : list Instr :=
  match trace with
  | [] => []
  | x :: rest => if isStop x then [] else x :: reached rest
  end.

(** A print all of whose arguments have an entry in [constMap]. *)
Definition isQueued (constMap : Env) (ins : Instr) : bool :=
  match ins with
  | Op o =>
      String.eqb (op o) "print"
      && forallb (λ a, match constMap !! a with Some _ => true | None => false end)
                 (printedArgs o)
  | Label _ => false
  end.

(** An operation the lowering builds: its opcode is const, eq, ceq or guard
    and it has no function list. *)
Definition isSynth (ins : Instr) : bool :=
  match ins with
  | Op o =>
      (String.eqb (op o) "const" || String.eqb (op o) "eq"
       || String.eqb (op o) "ceq" || String.eqb (op o) "guard")
      && match funcs o with None => true | Some _ => false end
  | Label _ => false
  end.

(** How the fold pass relates an operation of the trace to what it emits:
    the operation itself, or a const of the same destination, with the type
    of the operation or [int], in place of an add, sub or mul. *)
Definition foldedAs (x y : Instr) : Prop :=
  y = x
  ∨ ∃ i v, x = Op i ∧ isArith (op i) = true
           ∧ y = Op {| op := "const"; dest := dest i;
                       type := Some (default (TPrim "int") (type i));
                       args := None; value := Some (VNum v);
                       labels := None; funcs := None |}.

(** An instruction that may change the binding of [a] in the constant
    environment: a const of destination [a], or an add, sub or mul of
    destination [a]. *)
Definition rebinds (a : string) (ins : Instr) : bool :=
  match ins with
  | Op i =>
      (String.eqb (op i) "const" || isArith (op i))
      && match dest i with Some d => String.eqb d a | None => false end
  | Label _ => false
  end.

(** A const instruction whose destination is the non-empty name [d]. *)
Definition isConstOf (d : string) (ins : Instr) : bool :=
  match ins with
  | Op i =>
      String.eqb (op i) "const"
      && match truthy (dest i) with Some d' => String.eqb d' d | None => false end
  | Label _ => false
  end.

Definition idI (d x : string) : Instr :=
  Op {| op := "id"; dest := Some d; type := Some (TPrim "int"); args := Some [x];
        value := None; labels := None; funcs := None |}.

(** ** The printer: [brilToText]

    [main] prints the validated program with [brilToText].  A field that is
    [None] prints as a field that is absent.  The only operations [main]
    builds with a field that is present and [undefined] are the
    expected-value constants of a printed argument whose recorded const had
    no value; the records do not tell them apart from a const without a
    value field, and nothing below is stated about their text. *)

(** The line feed. *)
Definition nl : string := String (Ascii.ascii_of_nat 10) "".

(** [l.startsWith(".") ? l : `.${l}`]. *)
Definition dotted (l : string) : string :=
  if String.prefix "." l then l else "." +:+ l.

(** A type inside a template string: a name as it is, an object as
    [[object Object]], a missing type as [undefined]. *)
Definition tyText (t : option Ty) : string :=
  match t with
  | None => "undefined"
  | Some (TPrim name) => name
  | Some (TParam _ _) => "[object Object]"
  end.

(** A string used as a condition. *)
Definition nonEmpty (s : string) : bool :=
  match s with
  | "" => false
  | _ => true
  end.

Section Printer.

(** [String(n)] on a number is the engine's shortest round-trip rendering;
    the printer is parametric in it. *)
Variable numberToString : float → string.

(** [String(v)]. *)
Definition valueText (v : Value) : string :=
  match v with
  | VNum n => numberToString n
  | VBool true => "true"
  | VBool false => "false"
  | VStr s => s
  end.

(** The prefix [dest: type = ], present when [instr.dest] is truthy. *)
Definition destText (instr : Operation) : string :=
  match truthy (dest instr) with
  | Some d => d +:+ ": " +:+ tyText (type instr) +:+ " = "
  | None => ""
  end.

(** [xs && xs.length ? xs.join(" ") : ""]. *)
Definition joined (xs : option (list string)) : string :=
  match xs with
  | Some ys => String.concat " " ys
  | None => ""
  end.

(** What follows the opcode, in the three branches on [op]. *)
Definition bodyText (instr : Operation) : string :=
  if String.eqb (op instr) "call" then
    let funcName :=
      match funcs instr with
      | Some (f :: _) => "@" +:+ f
      | _ => ""
      end in
    let argsText := joined (args instr) in
    (if nonEmpty funcName then " " +:+ funcName else "")
    +:+ (if nonEmpty argsText then " " +:+ argsText else "")
  else if String.eqb (op instr) "ret" then
    match args instr with
    | Some (x :: xs) => " " +:+ String.concat " " (x :: xs)
    | _ => ""
    end
  else
    let argsStr := joined (args instr) in
    let valueStr :=
      if String.eqb (op instr) "const"
      then match value instr with Some v => valueText v | None => "" end
      else "" in
    let labelsStr := joined (List.map dotted <$> labels instr) in
    let parts := List.filter nonEmpty [argsStr; valueStr; labelsStr] in
    match parts with
    | [] => ""
    | _ => " " +:+ String.concat " " parts
    end.

(** The lines printed for one entry of an instruction list. *)
Definition instrText (instr : Instr) : string :=
  match instr with
  | Label lab => dotted lab +:+ ":" +:+ nl +:+ "  nop;" +:+ nl
  | Op i => "  " +:+ destText i +:+ op i +:+ bodyText i +:+ ";" +:+ nl
  end.

(** The inner loop: [text += ...] for each instruction. *)
Definition instrsText (text : string) (instrs : list Instr) : string :=
  fold_left (λ t instr, t +:+ instrText instr) instrs text.

(** The header of a function: name, parameters when there are some, return
    type when it is truthy. *)
Definition headerText (func : Func) : string :=
  let withArgs :=
    match fn_args func with
    | Some (a :: rest) =>
        "@" +:+ fn_name func +:+ "("
        +:+ String.concat ", "
              (List.map (λ a, arg_name a +:+ ": " +:+ tyText (Some (arg_type a)))
                 (a :: rest))
        +:+ ")"
    | _ => "@" +:+ fn_name func
    end in
  match fn_type func with
  | None | Some (TPrim "") => withArgs
  | Some t => withArgs +:+ ":" +:+ tyText (Some t)
  end.

(** One iteration of the outer loop.  After [validateBrilProgram] every
    function has its instruction list; without one the loop raises. *)
Definition funcStep (acc : Outcome string) (func : Func) : Outcome string :=
  match acc with
  | Done text =>
      match fn_instrs func with
      | Some instrs =>
          Done (instrsText (text +:+ headerText func +:+ " {" +:+ nl) instrs
                +:+ "}" +:+ nl +:+ nl)
      | None => Throw "TypeError: func.instrs is not iterable"
      end
  | other => other
  end.

Definition brilToText (prog : Program) : Outcome string :=
  fold_left funcStep (functions prog) (Done "").

End Printer.

(** ** The head of [main]: arguments and trace lines

    Before it reduces the trace, [main] tests [Deno.args[0]], reads the
    program and the trace file, and parses the trace line by line.
    [tracePath] is [Deno.args[0]]; [prog] and [lines] are what the two reads
    give, the parsed program and the trimmed non-empty lines of the trace
    file.  [JSON.parse] on a line is a parameter, [None] where it raises;
    the exception is caught and the script leaves with code 2. *)

Section Head.

Variable StringToNumber : string → float.
Variable parseLine : string → option Instr.

Definition mainWithArgs (tracePath : option string) (lines : list string)
    (prog : Program) : Outcome Program :=
  match truthy tracePath with
  | None => Exit 1
  | Some _ =>
      match lines with
      | [] => Exit 2
      | _ =>
          match mapM parseLine lines with
          | None => Exit 2
          | Some rawTrace => main StringToNumber rawTrace prog
          end
      end
  end.

End Head.

(** * Properties *)

(** ** The fold pass threads its output by appending *)

Section ReducerFacts.

Variable StringToNumber : string → float.

Local Abbreviation step := (foldStep StringToNumber).
Local Abbreviation pass := (foldPass StringToNumber).

Lemma foldStep_out env out instr :
  step (env, out) instr
  = ((step (env, []) instr).1, out ++ (step (env, []) instr).2).
Proof.
  destruct instr as [l|i]; unfold foldStep.
  - by rewrite app_nil_r.
  - repeat case_match; reflexivity.
Qed.

Lemma foldLoop_out l env out :
  fold_left step l (env, out)
  = ((fold_left step l (env, [])).1, out ++ (fold_left step l (env, [])).2).
Proof.
  revert env out. induction l as [|i l IH]; intros env out; cbn [fold_left].
  - by rewrite app_nil_r.
  - rewrite foldStep_out.
    destruct (step (env, []) i) as [env' new] eqn:E. cbn [fst snd].
    rewrite IH, (IH env' new). cbn [fst snd]. by rewrite app_assoc.
Qed.

Lemma foldPass_snoc pre i : pass (pre ++ [i]) = step (pass pre) i.
Proof. unfold foldPass. by rewrite fold_left_app. Qed.

Lemma foldPass_split pre i post :
  (pass (pre ++ i :: post)).2
  = (pass pre).2 ++ (step ((pass pre).1, []) i).2
    ++ (fold_left step post ((step ((pass pre).1, []) i).1, [])).2.
Proof.
  unfold foldPass. rewrite fold_left_app. cbn [fold_left].
  destruct (fold_left step pre (∅, [])) as [env out]. cbn [fst snd].
  rewrite foldStep_out, foldLoop_out. cbn [fst snd].
  rewrite foldLoop_out. cbn [fst snd]. by rewrite <- app_assoc.
Qed.

End ReducerFacts.

(** ** The reducer: folding *)

Section Folding.

Variable StringToNumber : string → float.

Local Abbreviation step := (foldStep StringToNumber).
Local Abbreviation pass := (foldPass StringToNumber).
Local Abbreviation num := (Number StringToNumber).

Lemma truthy_Some s d : truthy s = Some d → s = Some d ∧ d ≠ "".
Proof.
  destruct s as [[|c s']|]; simpl; intros H; try discriminate.
  inversion H; subst. split; [reflexivity | discriminate].
Qed.

Lemma isArith_not_const o : isArith o = true → String.eqb o "const" = false.
Proof.
  unfold isArith. intros H. apply String.eqb_neq. intros ->. discriminate.
Qed.

Lemma operand_spec env i k v :
  operand env i k = Some v
  ↔ ∃ xs a, args i = Some xs ∧ xs !! k = Some a ∧ env !! a = Some (Some v).
Proof.
  unfold operand, envGet. split.
  - destruct (args i) as [xs|]; [|discriminate].
    destruct (xs !! k) as [a|] eqn:Ha; [|discriminate].
    destruct (env !! a) as [[w|]|] eqn:He; try discriminate.
    intros [= ->]. by exists xs, a.
  - intros (xs & a & -> & -> & ->). reflexivity.
Qed.

(** A foldable instruction becomes a [const] and binds its destination. *)
Lemma foldStep_folds env out i d vx vy :
  isArith (op i) = true →
  truthy (dest i) = Some d →
  operand env i 0 = Some vx →
  operand env i 1 = Some vy →
  step (env, out) (Op i)
  = (<[d := Some (VNum (arith (op i) (num vx) (num vy)))]> env,
     out ++ [Op (foldedConst d (type i) (arith (op i) (num vx) (num vy)))]).
Proof.
  intros Ha Hd Hx Hy. unfold operand in Hx, Hy. unfold foldStep.
  rewrite (isArith_not_const _ Ha), Ha, Hd.
  destruct (args i) as [xs|]; [|discriminate].
  by rewrite Hx, Hy.
Qed.

(** An arithmetic instruction with an unknown operand passes through. *)
Lemma foldStep_keeps env out i :
  isArith (op i) = true →
  operand env i 0 = None ∨ operand env i 1 = None →
  step (env, out) (Op i) = (env, out ++ [Op i]).
Proof.
  intros Ha Hn. unfold operand in Hn. unfold foldStep.
  rewrite (isArith_not_const _ Ha), Ha.
  destruct (args i) as [xs|]; [|reflexivity].
  destruct (truthy (dest i)); [|reflexivity].
  destruct Hn as [-> | Hn]; [reflexivity|].
  rewrite Hn. by destruct (envGet env (xs !! 0%nat)).
Qed.

(** C1. In the fold pass, an add/sub/mul instruction (with a destination)
    whose two operands are both known in the constant environment reached
    at that point is replaced, at its position, by a [const] whose value is
    the operator applied to the two operand values in binary64 arithmetic,
    and the environment binds the destination to that value; an add/sub/mul
    with an operand that is not known is kept as it is and leaves the
    environment unchanged. *)
Theorem C1_fold_pass (pre post : list Instr) (i : Operation) :
  isArith (op i) = true →
  (∀ d vx vy,
      truthy (dest i) = Some d →
      operand (pass pre).1 i 0 = Some vx →
      operand (pass pre).1 i 1 = Some vy →
      ∃ val,
        (op i = "add" → val = (num vx + num vy)%float)
        ∧ (op i = "sub" → val = (num vx - num vy)%float)
        ∧ (op i = "mul" → val = (num vx * num vy)%float)
        ∧ pass (pre ++ [Op i])
          = (<[d := Some (VNum val)]> (pass pre).1,
             (pass pre).2
             ++ [Op {| op := "const"; dest := Some d;
                       type := Some (default (TPrim "int") (type i));
                       args := None; value := Some (VNum val);
                       labels := None; funcs := None |}])
        ∧ (pass (pre ++ Op i :: post)).2
          = (pass pre).2
            ++ Op {| op := "const"; dest := Some d;
                     type := Some (default (TPrim "int") (type i));
                     args := None; value := Some (VNum val);
                     labels := None; funcs := None |}
            :: (fold_left step post
                  (<[d := Some (VNum val)]> (pass pre).1, [])).2)
  ∧ (operand (pass pre).1 i 0 = None ∨ operand (pass pre).1 i 1 = None →
     pass (pre ++ [Op i]) = ((pass pre).1, (pass pre).2 ++ [Op i])
     ∧ (pass (pre ++ Op i :: post)).2
       = (pass pre).2 ++ Op i :: (fold_left step post ((pass pre).1, [])).2).
Proof.
  intros Ha. split.
  - intros d vx vy Hd Hx Hy.
    exists (arith (op i) (num vx) (num vy)).
    split; [by intros -> |]. split; [by intros -> |]. split; [by intros -> |].
    split.
    + rewrite foldPass_snoc. destruct (pass pre) as [env out].
      rewrite (foldStep_folds env out i d vx vy Ha Hd Hx Hy).
      unfold foldedConst. by destruct (type i).
    + rewrite foldPass_split.
      rewrite (foldStep_folds _ [] i d vx vy Ha Hd Hx Hy). cbn [fst snd app].
      unfold foldedConst. by destruct (type i).
  - intros Hn. split.
    + rewrite foldPass_snoc. destruct (pass pre) as [env out].
      by apply foldStep_keeps.
    + rewrite foldPass_split.
      by rewrite (foldStep_keeps _ [] i Ha Hn).
Qed.

End Folding.

(** ** The reducer: use collection and the dead-assignment filter *)

Lemma isPure_spec o :
  isPure o = true ↔ o = "const" ∨ o = "add" ∨ o = "sub" ∨ o = "mul".
Proof.
  unfold isPure. rewrite !orb_true_iff, !String.eqb_eq. tauto.
Qed.

Lemma useArgs_spec (xs : list string) (used : gset string) a :
  a ∈ fold_left (λ u x, {[x]} ∪ u) xs used ↔ a ∈ used ∨ a ∈ xs.
Proof.
  revert used. induction xs as [|x xs IH]; intros used; cbn [fold_left].
  - rewrite elem_of_nil. tauto.
  - rewrite IH, elem_of_union, elem_of_singleton, elem_of_cons. tauto.
Qed.

Lemma usedIn_nil a : ¬ usedIn [] a.
Proof. intros (j & xs & Hj & _). by apply elem_of_nil in Hj. Qed.

Lemma usedIn_cons ins out a :
  usedIn (ins :: out) a
  ↔ (∃ o xs, ins = Op o ∧ args o = Some xs ∧ a ∈ xs) ∨ usedIn out a.
Proof.
  unfold usedIn. split.
  - intros (j & xs & Hj & Hx & Ha). apply elem_of_cons in Hj as [Hj | Hj].
    + left. exists j, xs. by rewrite Hj.
    + right. by exists j, xs.
  - intros [(o & xs & -> & Hx & Ha) | (j & xs & Hj & Hx & Ha)].
    + exists o, xs. rewrite elem_of_cons. auto.
    + exists j, xs. rewrite elem_of_cons. auto.
Qed.

Lemma useLoop_spec (out : list Instr) (used : gset string) a :
  a ∈ fold_left useStep out used ↔ a ∈ used ∨ usedIn out a.
Proof.
  revert used. induction out as [|ins out IH]; intros used; cbn [fold_left].
  - pose proof (usedIn_nil a). tauto.
  - rewrite IH, usedIn_cons. destruct ins as [l | o]; cbn [useStep].
    + split; [tauto |]. intros [H | [(o & xs & Ho & _) | H]]; auto. discriminate.
    + destruct (args o) as [ys|] eqn:Ho.
      * rewrite useArgs_spec. split.
        -- intros [[H | H] | H]; auto. right; left. by exists o, ys.
        -- intros [H | [(o' & xs & Ho' & Hx & Ha) | H]]; auto.
           inversion Ho'; subst. left; right. congruence.
      * split; [tauto |]. intros [H | [(o' & xs & Ho' & Hx & _) | H]]; auto.
        inversion Ho'; subst. congruence.
Qed.

Lemma collectUsed_spec (out : list Instr) a : a ∈ collectUsed out ↔ usedIn out a.
Proof.
  unfold collectUsed. rewrite useLoop_spec, elem_of_empty. tauto.
Qed.

Lemma dceKeep_false (out : list Instr) (ins : Instr) :
  dceKeep (collectUsed out) ins = false
  ↔ ∃ i d, ins = Op i ∧ truthy (dest i) = Some d ∧ ¬ usedIn out d
           ∧ (op i = "const" ∨ op i = "add" ∨ op i = "sub" ∨ op i = "mul").
Proof.
  destruct ins as [l | o]; cbn [dceKeep].
  - split; [discriminate | by intros (i & d & ? & _)].
  - destruct (truthy (dest o)) as [d|] eqn:Hd.
    + case_bool_decide as Hu; rewrite collectUsed_spec in Hu.
      * split; [discriminate |].
        intros (i & d' & Hi & Hd' & Hn & _). inversion Hi; subst.
        rewrite Hd in Hd'. inversion Hd'; subst. contradiction.
      * rewrite negb_false_iff, isPure_spec. split.
        -- intros Hp. by exists o, d.
        -- intros (i & d' & Hi & _ & _ & Hp). by inversion Hi; subst.
    + split; [discriminate |].
      intros (i & d' & Hi & Hd' & _). inversion Hi; subst. congruence.
Qed.

Lemma filter_filter_implied {A} (p q : A → bool) (l : list A) :
  (∀ x, p x = true → q x = true) →
  List.filter p (List.filter q l) = List.filter p l.
Proof.
  intros Hpq. induction l as [|x l IH]; [reflexivity|]. cbn [List.filter].
  destruct (q x) eqn:Hq; cbn [List.filter].
  - by rewrite IH.
  - destruct (p x) eqn:Hp; [|done]. apply Hpq in Hp. congruence.
Qed.

Lemma isEffect_not_pure o : isEffect (Op o) = true → isPure (op o) = false.
Proof.
  cbn [isEffect]. rewrite !orb_true_iff, !String.eqb_eq.
  unfold isPure. intros [[[[[H | H] | H] | H] | H] | H]; by rewrite H.
Qed.

Lemma isEffect_dceKeep used ins : isEffect ins = true → dceKeep used ins = true.
Proof.
  destruct ins as [l | o]; [done|]. intros H%isEffect_not_pure.
  cbn [dceKeep]. rewrite H. by repeat case_match.
Qed.

Section Pruning.

Variable StringToNumber : string → float.

Local Abbreviation step := (foldStep StringToNumber).
Local Abbreviation pass := (foldPass StringToNumber).
Local Abbreviation reduce := (optimizeTrace StringToNumber).

Lemma isArith_not_effect o : isArith (op o) = true → isEffect (Op o) = false.
Proof.
  unfold isArith. rewrite !orb_true_iff, !String.eqb_eq.
  cbn [isEffect]. intros [[H | H] | H]; by rewrite H.
Qed.

(** The fold pass emits, for each entry, the entry itself, a [const] in
    place of an arithmetic instruction, or nothing for a label. *)
Lemma foldStep_shape env out ins :
  (step (env, out) ins).2 = out ++ match ins with Label _ => [] | Op _ => [ins] end
  ∨ ∃ i d t v, ins = Op i ∧ isArith (op i) = true
               ∧ (step (env, out) ins).2 = out ++ [Op (foldedConst d t v)].
Proof.
  destruct ins as [l | i]; unfold foldStep.
  - left. by rewrite app_nil_r.
  - destruct (String.eqb (op i) "const"), (dest i) as [d|];
      try (by left);
      destruct (isArith (op i)) eqn:Ha; try (by left);
      destruct (args i) as [xs|]; try (by left);
      destruct (truthy _) as [d'|]; try (by left);
      destruct (envGet env (xs !! 0%nat)) as [vx|]; try (by left);
      destruct (envGet env (xs !! 1%nat)) as [vy|]; try (by left);
      right; eauto 10.
Qed.

Lemma foldStep_effect env out ins :
  List.filter isEffect (step (env, out) ins).2
  = List.filter isEffect out ++ List.filter isEffect [ins].
Proof.
  destruct (foldStep_shape env out ins) as [-> | (i & d & t & v & -> & Ha & ->)];
    rewrite List.filter_app.
  - by destruct ins.
  - cbn [List.filter]. by rewrite (isArith_not_effect i Ha).
Qed.

Lemma foldPass_effect instrs :
  List.filter isEffect (pass instrs).2 = List.filter isEffect instrs.
Proof.
  induction instrs as [|ins instrs IH] using rev_ind; [reflexivity|].
  rewrite foldPass_snoc. destruct (pass instrs) as [env out].
  by rewrite foldStep_effect, List.filter_app, <- IH.
Qed.

Lemma foldStep_ops env out ins :
  Forall (λ x, isOp x = true) out →
  Forall (λ x, isOp x = true) (step (env, out) ins).2.
Proof.
  intros Ho.
  destruct (foldStep_shape env out ins) as [-> | (i & d & t & v & -> & Ha & ->)];
    apply Forall_app; split; try done.
  - destruct ins; by repeat constructor.
  - by repeat constructor.
Qed.

Lemma foldPass_ops instrs : Forall (λ x, isOp x = true) (pass instrs).2.
Proof.
  induction instrs as [|ins instrs IH] using rev_ind; [constructor|].
  rewrite foldPass_snoc. destruct (pass instrs) as [env out].
  by apply foldStep_ops.
Qed.

Lemma foldLoop_skip_labels instrs st :
  fold_left step instrs st = fold_left step (List.filter isOp instrs) st.
Proof.
  revert st. induction instrs as [|ins instrs IH]; intros st; [reflexivity|].
  destruct ins as [l | i]; cbn [List.filter isOp fold_left].
  - destruct st as [env out]. apply IH.
  - apply IH.
Qed.

Lemma optimizeTrace_skip_labels instrs :
  reduce instrs = reduce (List.filter isOp instrs).
Proof.
  unfold optimizeTrace, foldPass. by rewrite <- foldLoop_skip_labels.
Qed.

Lemma optimizeTrace_ops instrs : Forall (λ x, isOp x = true) (reduce instrs).
Proof.
  unfold optimizeTrace. apply Forall_forall. intros x Hx.
  apply list_elem_of_In, List.filter_In in Hx as [Hx _].
  pose proof (foldPass_ops instrs) as Ho.
  rewrite Forall_forall in Ho. by apply Ho, list_elem_of_In.
Qed.

(** C2. The reducer's result is the folded output filtered by [dceKeep];
    an entry is removed exactly when it is an operation with a (non-empty)
    destination that no operation of the folded output takes as an
    argument and whose opcode is const, add, sub or mul.  Hence the print,
    call, ret, guard, speculate and commit instructions of the input
    trace all survive the reducer, in their order. *)
Theorem C2_dead_assignment_filter (instrs : list Instr) :
  reduce instrs
  = List.filter (dceKeep (collectUsed (pass instrs).2)) (pass instrs).2
  ∧ (∀ ins,
        dceKeep (collectUsed (pass instrs).2) ins = false
        ↔ ∃ i d, ins = Op i ∧ truthy (dest i) = Some d
                 ∧ ¬ usedIn (pass instrs).2 d
                 ∧ (op i = "const" ∨ op i = "add" ∨ op i = "sub" ∨ op i = "mul"))
  ∧ List.filter isEffect (reduce instrs) = List.filter isEffect instrs.
Proof.
  split; [reflexivity|]. split; [intros ins; apply dceKeep_false|].
  unfold optimizeTrace.
  rewrite filter_filter_implied by apply isEffect_dceKeep.
  apply foldPass_effect.
Qed.

End Pruning.

(** ** Guard lowering *)

Lemma forceBail_guarded st :
  guarded (forceBail st) = guarded st ++ bailPair (synthCounter st).
Proof. reflexivity. Qed.

Lemma checkArg_guarded val a st :
  guarded (checkArg val a st) = guarded st ++ argCheck val a (synthCounter st).
Proof.
  unfold checkArg, argCheck, expConst, cmpInstr. cbn [guarded].
  by destruct val as [[n | b | s]|].
Qed.

Lemma printArgStep_known constMap st b a val :
  constMap !! a = Some val →
  printArgStep constMap (st, b) a = (checkArg val a st, b).
Proof. intros H. unfold printArgStep. by rewrite H. Qed.

Lemma printArgStep_unknown constMap st b a :
  constMap !! a = None →
  printArgStep constMap (st, b) a = (forceBail st, true).
Proof. intros H. unfold printArgStep. by rewrite H. Qed.

(** The inner loop over a print's arguments only appends operations to
    [guarded], leaves the queue alone and never lowers the counter. *)
Lemma printArgs_grow constMap xs st b :
  (∃ new, guarded (fold_left (printArgStep constMap) xs (st, b)).1
          = guarded st ++ new
          ∧ Forall (λ x, isOp x = true) new)
  ∧ postCommitPrints (fold_left (printArgStep constMap) xs (st, b)).1
    = postCommitPrints st
  ∧ (synthCounter st
     ≤ synthCounter (fold_left (printArgStep constMap) xs (st, b)).1)%nat.
Proof.
  revert st b. induction xs as [|a xs IH]; intros st b; cbn [fold_left].
  - cbn [fst]. split; [exists []; by rewrite app_nil_r | split; [done | lia]].
  - destruct (constMap !! a) as [val|] eqn:Ha.
    + rewrite (printArgStep_known _ _ _ _ _ Ha).
      destruct (IH (checkArg val a st) b) as ((new & Hg & Ho) & Hq & Hn).
      split; [| split].
      * exists (argCheck val a (synthCounter st) ++ new). split.
        -- by rewrite Hg, checkArg_guarded, app_assoc.
        -- apply Forall_app. split; [by repeat constructor | done].
      * by rewrite Hq.
      * cbn [checkArg synthCounter] in Hn. lia.
    + rewrite (printArgStep_unknown _ _ _ _ Ha).
      destruct (IH (forceBail st) true) as ((new & Hg & Ho) & Hq & Hn).
      split; [| split].
      * exists (bailPair (synthCounter st) ++ new). split.
        -- by rewrite Hg, forceBail_guarded, app_assoc.
        -- apply Forall_app. split; [by repeat constructor | done].
      * by rewrite Hq.
      * cbn [forceBail synthCounter] in Hn. lia.
Qed.

(** Once set, [willAlwaysBail] stays set. *)
Lemma printArgs_bail_sticky constMap xs st :
  (fold_left (printArgStep constMap) xs (st, true)).2 = true.
Proof.
  revert st. induction xs as [|a xs IH]; intros st; [reflexivity|].
  cbn [fold_left]. destruct (constMap !! a) as [val|] eqn:Ha.
  - by rewrite (printArgStep_known _ _ _ _ _ Ha).
  - by rewrite (printArgStep_unknown _ _ _ _ Ha).
Qed.

(** An argument without a recorded value forces a bail. *)
Lemma printArgs_unknown constMap xs st b a :
  a ∈ xs → constMap !! a = None →
  (fold_left (printArgStep constMap) xs (st, b)).2 = true
  ∧ ∃ l1 n l2,
      guarded (fold_left (printArgStep constMap) xs (st, b)).1
      = guarded st ++ l1 ++ bailPair n ++ l2.
Proof.
  intros Ha Hn. revert st b.
  induction xs as [|x xs IH]; intros st b; [by apply elem_of_nil in Ha|].
  cbn [fold_left]. apply elem_of_cons in Ha as [<- | Ha].
  - rewrite (printArgStep_unknown _ _ _ _ Hn). split.
    + apply printArgs_bail_sticky.
    + destruct (printArgs_grow constMap xs (forceBail st) true) as ((new & Hg & _) & _).
      exists [], (synthCounter st), new.
      by rewrite Hg, forceBail_guarded, <- app_assoc.
  - specialize (IH Ha). destruct (constMap !! x) as [val|] eqn:Hx.
    + rewrite (printArgStep_known _ _ _ _ _ Hx).
      destruct (IH (checkArg val x st) b) as (Hb & l1 & n & l2 & Hg).
      split; [done|].
      exists (argCheck val x (synthCounter st) ++ l1), n, l2.
      by rewrite Hg, checkArg_guarded, <- !app_assoc.
    + rewrite (printArgStep_unknown _ _ _ _ Hx).
      destruct (IH (forceBail st) true) as (Hb & l1 & n & l2 & Hg).
      split; [done|].
      exists (bailPair (synthCounter st) ++ l1), n, l2.
      by rewrite Hg, forceBail_guarded, <- !app_assoc.
Qed.

(** When every argument has a recorded value, argument [k] gets its three
    instructions at offset [3 * k], named from counter [n + 2 * k]. *)
Lemma printArgs_known constMap xs st b :
  (∀ a, a ∈ xs → is_Some (constMap !! a)) →
  (fold_left (printArgStep constMap) xs (st, b)).2 = b
  ∧ synthCounter (fold_left (printArgStep constMap) xs (st, b)).1
    = synthCounter st + 2 * length xs
  ∧ length (guarded (fold_left (printArgStep constMap) xs (st, b)).1)
    = length (guarded st) + 3 * length xs
  ∧ ∀ k a val, xs !! k = Some a → constMap !! a = Some val →
      ∃ l1 l2, length l1 = 3 * k
               ∧ guarded (fold_left (printArgStep constMap) xs (st, b)).1
                 = guarded st ++ l1 ++ argCheck val a (synthCounter st + 2 * k) ++ l2.
Proof.
  revert st b. induction xs as [|x xs IH]; intros st b Hk; cbn [fold_left].
  - cbn [fst snd length]. split; [done|]. split; [lia|]. split; [lia|].
    intros k a val Hl. by destruct k.
  - destruct (Hk x) as [vx Hx]; [apply list_elem_of_here|].
    rewrite (printArgStep_known _ _ _ _ _ Hx).
    destruct (IH (checkArg vx x st) b) as (Hb & Hn & Hlen & Hpos).
    { intros a Ha. apply Hk. by apply elem_of_cons; right. }
    split; [done|]. split; [rewrite Hn; cbn; lia|].
    split; [rewrite Hlen, checkArg_guarded, length_app; cbn; lia|].
    intros [|k] a val Hl Hv.
    + inversion Hl; subst. rewrite Hx in Hv. inversion Hv; subst.
      destruct (printArgs_grow constMap xs (checkArg val a st) b) as ((new & Hg & _) & _).
      exists [], new. split; [done|].
      rewrite Hg, checkArg_guarded, <- app_assoc.
      by replace (synthCounter st + 2 * 0) with (synthCounter st) by lia.
    + destruct (Hpos k a val Hl Hv) as (l1 & l2 & Hl1 & Hg).
      exists (argCheck vx x (synthCounter st) ++ l1), l2. split.
      * rewrite length_app, Hl1. cbn. lia.
      * rewrite Hg, checkArg_guarded, <- !app_assoc.
        by replace (synthCounter (checkArg vx x st) + 2 * k)
          with (synthCounter st + 2 * S k) by (cbn; lia).
Qed.

(** What a print adds: operations to [guarded], at most itself to the queue. *)
Lemma lowerPrint_grow constMap ins st :
  (∃ new, guarded (lowerPrint constMap ins st) = guarded st ++ new
          ∧ Forall (λ x, isOp x = true) new)
  ∧ (∃ q, postCommitPrints (lowerPrint constMap ins st) = postCommitPrints st ++ q
          ∧ Forall (λ x, isOp x = true) q)
  ∧ (synthCounter st ≤ synthCounter (lowerPrint constMap ins st))%nat.
Proof.
  unfold lowerPrint.
  destruct (printArgs_grow constMap (default [] (args ins)) st false)
    as ((new & Hg & Ho) & Hq & Hn).
  change (match args ins with Some xs => xs | None => [] end)
    with (default [] (args ins)).
  destruct (fold_left _ _ _) as [st' [|]]; cbn [fst] in *;
    cbn [guarded postCommitPrints synthCounter].
  - split; [by exists new|]. split; [|done].
    exists []. by rewrite app_nil_r.
  - split; [by exists new|]. split; [|done].
    exists [Op ins]. rewrite Hq. by repeat constructor.
Qed.

(** The loop on one entry that is not a call or a ret, then on the rest. *)
Lemma lowerLoop_cons constMap ins rest st :
  isStop ins = false →
  lowerLoop constMap (ins :: rest) st
  = match lowerLoop constMap [ins] st with
    | Done st' => lowerLoop constMap rest st'
    | Throw msg => Throw msg
    | Exit c => Exit c
    end.
Proof.
  destruct ins as [l | i]; cbn [isStop lowerLoop]; [done|]. intros ->.
  destruct (String.eqb (op i) "jmp"); [done|].
  destruct (String.eqb (op i) "br"); [by destruct (condVarOf i)|].
  by destruct (String.eqb (op i) "print").
Qed.

Lemma lowerLoop_app constMap pre post st :
  Forall (λ x, isStop x = false) pre →
  lowerLoop constMap (pre ++ post) st
  = match lowerLoop constMap pre st with
    | Done st' => lowerLoop constMap post st'
    | Throw msg => Throw msg
    | Exit c => Exit c
    end.
Proof.
  intros Hpre. revert st. induction Hpre as [|ins pre Hs _ IH]; intros st.
  - reflexivity.
  - rewrite <- app_comm_cons, (lowerLoop_cons _ ins (pre ++ post)),
      (lowerLoop_cons _ ins pre) by done.
    destruct (lowerLoop constMap [ins] st); [apply IH | done | done].
Qed.

(** One entry that is neither a stop nor a malformed br is lowered to
    operations appended to [guarded] and maybe to the queue. *)
Lemma lowerLoop_one constMap ins st :
  isStop ins = false → isBadBr ins = false →
  ∃ st', lowerLoop constMap [ins] st = Done st'
         ∧ (∃ g, guarded st' = guarded st ++ g ∧ Forall (λ x, isOp x = true) g)
         ∧ (∃ q, postCommitPrints st' = postCommitPrints st ++ q
                 ∧ Forall (λ x, isOp x = true) q)
         ∧ (synthCounter st ≤ synthCounter st')%nat.
Proof.
  assert (Hid : ∃ st', Done st = Done st'
         ∧ (∃ g, guarded st' = guarded st ++ g ∧ Forall (λ x, isOp x = true) g)
         ∧ (∃ q, postCommitPrints st' = postCommitPrints st ++ q
                 ∧ Forall (λ x, isOp x = true) q)
         ∧ (synthCounter st ≤ synthCounter st')%nat).
  { exists st. split; [done|].
    split; [exists []; by rewrite app_nil_r|].
    split; [exists []; by rewrite app_nil_r | lia]. }
  assert (Hpush : ∀ x, ∃ st', Done (pushGuarded st [Op x]) = Done st'
         ∧ (∃ g, guarded st' = guarded st ++ g ∧ Forall (λ x, isOp x = true) g)
         ∧ (∃ q, postCommitPrints st' = postCommitPrints st ++ q
                 ∧ Forall (λ x, isOp x = true) q)
         ∧ (synthCounter st ≤ synthCounter st')%nat).
  { intros x. exists (pushGuarded st [Op x]). split; [done|].
    split; [exists [Op x]; by repeat constructor|].
    split; [exists []; by rewrite app_nil_r | cbn; lia]. }
  destruct ins as [l | i]; cbn [isStop isBadBr lowerLoop]; [done|].
  intros -> Hbr.
  destruct (String.eqb (op i) "jmp"); [done|].
  destruct (String.eqb (op i) "br").
  - destruct (condVarOf i) as [c|]; [apply Hpush | discriminate].
  - destruct (String.eqb (op i) "print"); [|apply Hpush].
    exists (lowerPrint constMap i st). split; [done|]. apply lowerPrint_grow.
Qed.

(** A loop that runs through [pre] ends normally, having only appended. *)
Lemma lowerLoop_runs constMap pre st :
  runsThrough pre →
  ∃ st', lowerLoop constMap pre st = Done st'
         ∧ (∃ g, guarded st' = guarded st ++ g ∧ Forall (λ x, isOp x = true) g)
         ∧ (∃ q, postCommitPrints st' = postCommitPrints st ++ q
                 ∧ Forall (λ x, isOp x = true) q)
         ∧ (synthCounter st ≤ synthCounter st')%nat.
Proof.
  intros [Hs Hb]. revert st Hb.
  induction Hs as [|ins pre Hs _ IH]; intros st Hb.
  - exists st. split; [done|].
    split; [exists []; by rewrite app_nil_r|].
    split; [exists []; by rewrite app_nil_r | lia].
  - apply Forall_cons in Hb as [Hb1 Hb].
    destruct (lowerLoop_one constMap ins st Hs Hb1)
      as (st1 & H1 & (g1 & Hg1 & Ho1) & (q1 & Hq1 & Hp1) & Hn1).
    destruct (IH st1 Hb) as (st2 & H2 & (g2 & Hg2 & Ho2) & (q2 & Hq2 & Hp2) & Hn2).
    exists st2. rewrite lowerLoop_cons, H1 by done. split; [done|].
    split; [exists (g1 ++ g2); split;
            [by rewrite Hg2, Hg1, app_assoc | by apply Forall_app]|].
    split; [exists (q1 ++ q2); split;
            [by rewrite Hq2, Hq1, app_assoc | by apply Forall_app]|].
    lia.
Qed.

Lemma runsThrough_nil : runsThrough [].
Proof. split; constructor. Qed.

Lemma runsThrough_cons x pre :
  isStop x = false → isBadBr x = false → runsThrough pre → runsThrough (x :: pre).
Proof. intros Hs Hb [H1 H2]. split; by constructor. Qed.

(** Every trace either runs through, or has a first call/ret, or a first
    malformed br, reached by a loop that ran through what precedes it. *)
Lemma trace_cases (tr : list Instr) :
  runsThrough tr
  ∨ (∃ pre ins post, tr = pre ++ ins :: post ∧ runsThrough pre ∧ isStop ins = true)
  ∨ (∃ pre ins post, tr = pre ++ ins :: post ∧ runsThrough pre ∧ isBadBr ins = true).
Proof.
  induction tr as [|x tr IH].
  - left. apply runsThrough_nil.
  - destruct (isStop x) eqn:Hs.
    { right; left. exists [], x, tr. split; [done|]. split; [apply runsThrough_nil | done]. }
    destruct (isBadBr x) eqn:Hb.
    { right; right. exists [], x, tr. split; [done|]. split; [apply runsThrough_nil | done]. }
    destruct IH as [H | [(pre & ins & post & -> & H & Hi)
                        | (pre & ins & post & -> & H & Hi)]].
    + left. by apply runsThrough_cons.
    + right; left. exists (x :: pre), ins, post.
      split; [done|]. split; [by apply runsThrough_cons | done].
    + right; right. exists (x :: pre), ins, post.
      split; [done|]. split; [by apply runsThrough_cons | done].
Qed.

(** At the first call or ret the loop emits the bail pair and leaves. *)
Lemma lowerLoop_stop constMap pre ins post st :
  runsThrough pre → isStop ins = true →
  ∃ st1, lowerLoop constMap pre st = Done st1
         ∧ lowerLoop constMap (pre ++ ins :: post) st = Done (forceBail st1)
         ∧ (∃ g, guarded st1 = guarded st ++ g ∧ Forall (λ x, isOp x = true) g)
         ∧ (∃ q, postCommitPrints st1 = postCommitPrints st ++ q
                 ∧ Forall (λ x, isOp x = true) q)
         ∧ (synthCounter st ≤ synthCounter st1)%nat.
Proof.
  intros Hpre Hi.
  destruct (lowerLoop_runs constMap pre st Hpre) as (st1 & H1 & Hrest).
  exists st1. split; [done|]. split; [|done].
  rewrite lowerLoop_app, H1 by apply Hpre.
  destruct ins as [l | i]; [discriminate|]. cbn [isStop] in Hi.
  cbn [lowerLoop]. rewrite Hi.
  destruct (String.eqb (op i) "jmp") eqn:Hj; [|done].
  apply String.eqb_eq in Hj. by rewrite Hj in Hi.
Qed.

(** At the first br without a condition the run dies. *)
Lemma lowerLoop_badbr constMap pre ins post st :
  runsThrough pre → isBadBr ins = true →
  lowerLoop constMap (pre ++ ins :: post) st
  = Throw "br in trace without condition arg".
Proof.
  intros Hpre Hi.
  destruct (lowerLoop_runs constMap pre st Hpre) as (st1 & H1 & _).
  rewrite lowerLoop_app, H1 by apply Hpre.
  destruct ins as [l | i]; [discriminate|]. cbn [isBadBr] in Hi.
  apply andb_true_iff in Hi as [Hb Hc]. apply String.eqb_eq in Hb.
  cbn [lowerLoop]. rewrite Hb. cbn.
  by destruct (condVarOf i).
Qed.

(** The loop never leaves through [Deno.exit]. *)
Lemma lowerLoop_no_exit constMap tr st c : lowerLoop constMap tr st ≠ Exit c.
Proof.
  destruct (trace_cases tr) as [H | [(pre & ins & post & -> & H & Hi)
                                    | (pre & ins & post & -> & H & Hi)]].
  - by destruct (lowerLoop_runs constMap tr st H) as (st1 & -> & _).
  - by destruct (lowerLoop_stop constMap pre ins post st H Hi) as (st1 & _ & -> & _).
  - by rewrite (lowerLoop_badbr constMap pre ins post st H Hi).
Qed.

(** Whatever the trace, a normal end has only appended operations. *)
Lemma lowerLoop_Done_grow constMap tr st st' :
  lowerLoop constMap tr st = Done st' →
  (∃ g, guarded st' = guarded st ++ g ∧ Forall (λ x, isOp x = true) g)
  ∧ (∃ q, postCommitPrints st' = postCommitPrints st ++ q
          ∧ Forall (λ x, isOp x = true) q)
  ∧ (synthCounter st ≤ synthCounter st')%nat.
Proof.
  destruct (trace_cases tr) as [H | [(pre & ins & post & -> & H & Hi)
                                    | (pre & ins & post & -> & H & Hi)]].
  - destruct (lowerLoop_runs constMap tr st H) as (st1 & -> & Hrest).
    by intros [= <-].
  - destruct (lowerLoop_stop constMap pre ins post st H Hi)
      as (st1 & _ & -> & (g & Hg & Ho) & Hq & Hn).
    intros [= <-]. split; [|split; [done | cbn; lia]].
    exists (g ++ bailPair (synthCounter st1)). split.
    + by rewrite forceBail_guarded, Hg, app_assoc.
    + apply Forall_app. split; [done | by repeat constructor].
  - by rewrite (lowerLoop_badbr constMap pre ins post st H Hi).
Qed.

Lemma lowerLoop_skip_labels constMap tr st :
  lowerLoop constMap tr st = lowerLoop constMap (List.filter isOp tr) st.
Proof.
  revert st. induction tr as [|ins tr IH]; intros st; [reflexivity|].
  destruct ins as [l | i]; cbn [List.filter isOp].
  - cbn [lowerLoop]. apply IH.
  - cbn [lowerLoop]. repeat case_match; try done; apply IH.
Qed.

(** ** Synthesised names *)

Lemma to_uint_nonnil n : Nat.to_uint n ≠ Decimal.Nil.
Proof.
  intros H.
  assert (E : Nat.to_uint n = Decimal.unorm (Nat.to_uint n)).
  { rewrite <- DecimalNat.Unsigned.to_of.
    by rewrite DecimalNat.Unsigned.of_to. }
  rewrite H in E. discriminate E.
Qed.

Lemma showNat_inj a b : showNat a = showNat b → a = b.
Proof.
  unfold showNat. intros H.
  apply (f_equal NilZero.uint_of_string) in H.
  rewrite !NilZero.usu in H by apply to_uint_nonnil.
  injection H as H. by apply DecimalNat.Unsigned.to_uint_inj.
Qed.


(** ** Guard lowering: the claims *)




Lemma condVarOf_spec i c :
  condVarOf i = Some c ↔ ∃ xs, args i = Some (c :: xs) ∧ c ≠ "".
Proof.
  unfold condVarOf. split.
  - intros H%truthy_Some. destruct H as [H Hc].
    destruct (args i) as [[|x xs]|]; try discriminate.
    injection H as ->. eauto.
  - intros (xs & -> & Hc). cbn. by destruct c.
Qed.

(** C7, amended. A br that the loop reaches (nothing before it is a call, a
    ret or a br without condition) is replaced by a guard on its condition
    that targets the bail label when it has a condition argument, and ends
    the run with an exception when it has none.  The lowering loop raises
    in no other situation: a run that dies has reached a br without
    condition, and the loop never exits the process. *)
Theorem C7_br_lowering constMap (pre post : list Instr) (i : Operation)
    (st : Lowering) :
  runsThrough pre →
  op i = "br" →
  ∃ st1,
    lowerLoop constMap pre st = Done st1
    ∧ (∀ c, condVarOf i = Some c →
         lowerLoop constMap (pre ++ Op i :: post) st
         = lowerLoop constMap post
             {| guarded :=
                  guarded st1
                  ++ [Op {| op := "guard"; dest := None; type := None;
                            args := Some [c]; value := None;
                            labels := Some [".bail"]; funcs := None |}];
                postCommitPrints := postCommitPrints st1;
                synthCounter := synthCounter st1 |})
    ∧ (condVarOf i = None →
         lowerLoop constMap (pre ++ Op i :: post) st
         = Throw "br in trace without condition arg")
    ∧ (∀ tr st0 msg,
         lowerLoop constMap tr st0 = Throw msg →
         ∃ pre' j post', tr = pre' ++ Op j :: post' ∧ runsThrough pre'
                         ∧ op j = "br" ∧ condVarOf j = None)
    ∧ (∀ tr st0 code, lowerLoop constMap tr st0 ≠ Exit code).
Proof.
  intros Hpre Hi.
  destruct (lowerLoop_runs constMap pre st Hpre) as (st1 & H1 & _).
  exists st1. split; [done|]. split; [|split; [|split]].
  - intros c Hc. rewrite lowerLoop_app, H1 by apply Hpre.
    cbn [lowerLoop]. rewrite Hi, Hc. reflexivity.
  - intros Hc. apply lowerLoop_badbr; [done|].
    cbn [isBadBr]. by rewrite Hi, Hc.
  - intros tr st0 msg Ht.
    destruct (trace_cases tr) as [H | [(p & x & q & -> & H & Hx)
                                      | (p & x & q & -> & H & Hx)]].
    + destruct (lowerLoop_runs constMap tr st0 H) as (s & Hs & _). congruence.
    + destruct (lowerLoop_stop constMap p x q st0 H Hx) as (s & _ & Hs & _).
      congruence.
    + destruct x as [l | j]; [discriminate|]. cbn [isBadBr] in Hx.
      apply andb_true_iff in Hx as [Hb Hc]. apply String.eqb_eq in Hb.
      exists p, j, q. split; [done|]. split; [done|]. split; [done|].
      by destruct (condVarOf j).
  - intros tr st0 code. apply lowerLoop_no_exit.
Qed.

Lemma C7_br_lowering_witness :
  lowerLoop ∅ [constI "x" 1; brI ["c"]] initLowering
  = Done {| guarded := [constI "x" 1; Op (guardOn "c")];
            postCommitPrints := [];
            synthCounter := 0 |}
  ∧ lowerLoop ∅ [constI "x" 1; brI []; printI ["x"]] initLowering
    = Throw "br in trace without condition arg".
Proof.
  split.
  - destruct (C7_br_lowering ∅ [constI "x" 1] []
                {| op := "br"; dest := None; type := None; args := Some ["c"];
                   value := None; labels := Some ["then"; "else"]; funcs := None |}
                initLowering)
      as (st1 & H1 & H2 & _).
    + split; repeat constructor.
    + reflexivity.
    + injection H1 as <-. exact (H2 "c" eq_refl).
  - destruct (C7_br_lowering ∅ [constI "x" 1] [printI ["x"]]
                {| op := "br"; dest := None; type := None; args := Some [];
                   value := None; labels := Some ["then"; "else"]; funcs := None |}
                initLowering)
      as (st1 & _ & _ & H3 & _).
    + split; repeat constructor.
    + reflexivity.
    + exact (H3 eq_refl).
Defined.

(** C3, amended. For a print that the loop reaches (nothing before it is a
    call, a ret or a br without condition): if some printed argument has no
    recorded constant, a boolean constant false and a guard on it are
    appended and the print is not queued; if every printed argument has a
    recorded constant, argument number [k] gets, at offset [3 * k], a const
    holding the recorded literal, a comparison of the live argument with it
    (ceq for a string literal, eq otherwise) and a guard on the result, and
    the print is appended to the queue.  The loop then goes on from there,
    and only ever appends to both sequences. *)
Theorem C3_print_lowering constMap (pre post : list Instr) (i : Operation)
    (st : Lowering) :
  runsThrough pre →
  op i = "print" →
  ∃ st1 st2,
    lowerLoop constMap pre st = Done st1
    ∧ lowerLoop constMap (pre ++ Op i :: post) st = lowerLoop constMap post st2
    ∧ ((∃ a, a ∈ printedArgs i ∧ constMap !! a = None) →
         postCommitPrints st2 = postCommitPrints st1
         ∧ ∃ l1 n l2,
             guarded st2
             = guarded st1 ++ l1
               ++ [Op {| op := "const"; dest := Some ("_spec_false_" +:+ showNat n);
                         type := Some (TPrim "bool"); args := None;
                         value := Some (VBool false); labels := None;
                         funcs := None |};
                   Op {| op := "guard"; dest := None; type := None;
                         args := Some ["_spec_false_" +:+ showNat n];
                         value := None; labels := Some [".bail"];
                         funcs := None |}]
               ++ l2)
    ∧ ((∀ a, a ∈ printedArgs i → is_Some (constMap !! a)) →
         postCommitPrints st2 = postCommitPrints st1 ++ [Op i]
         ∧ length (guarded st2) = length (guarded st1) + 3 * length (printedArgs i)
         ∧ ∀ k a val,
             printedArgs i !! k = Some a → constMap !! a = Some val →
             ∃ l1 l2,
               length l1 = 3 * k
               ∧ guarded st2
                 = guarded st1 ++ l1
                   ++ argCheck val a (synthCounter st1 + 2 * k) ++ l2)
    ∧ (∀ final,
         lowerLoop constMap (pre ++ Op i :: post) st = Done final →
         ∃ g q, guarded final = guarded st2 ++ g
                ∧ postCommitPrints final = postCommitPrints st2 ++ q).
Proof.
  intros Hpre Hi.
  destruct (lowerLoop_runs constMap pre st Hpre) as (st1 & H1 & _).
  exists st1, (lowerPrint constMap i st1).
  assert (Hstep : lowerLoop constMap (pre ++ Op i :: post) st
                  = lowerLoop constMap post (lowerPrint constMap i st1)).
  { rewrite lowerLoop_app, H1 by apply Hpre. cbn [lowerLoop]. by rewrite Hi. }
  split; [done|]. split; [done|]. split; [|split].
  - intros (a & Ha & Hn). unfold lowerPrint.
    change (match args i with Some xs => xs | None => [] end) with (printedArgs i).
    destruct (printArgs_unknown constMap (printedArgs i) st1 false a Ha Hn)
      as (Hb & l1 & n & l2 & Hg).
    destruct (printArgs_grow constMap (printedArgs i) st1 false) as (_ & Hq & _).
    destruct (fold_left _ _ _) as [st' b]. cbn [fst snd] in *. subst b.
    split; [done|]. by exists l1, n, l2.
  - intros Hk. unfold lowerPrint.
    change (match args i with Some xs => xs | None => [] end) with (printedArgs i).
    destruct (printArgs_known constMap (printedArgs i) st1 false Hk)
      as (Hb & _ & Hlen & Hpos).
    destruct (printArgs_grow constMap (printedArgs i) st1 false) as (_ & Hq & _).
    destruct (fold_left _ _ _) as [st' b]. cbn [fst snd] in *. subst b.
    cbn [guarded postCommitPrints]. by rewrite Hq.
  - intros final Hf. rewrite Hstep in Hf.
    destruct (lowerLoop_Done_grow _ _ _ _ Hf) as ((g & Hg & _) & (q & Hq & _) & _).
    by exists g, q.
Qed.

Lemma C3_print_lowering_witness :
  ∃ st1 st2,
    lowerLoop (buildConstMap [constI "x" 1; printI ["x"]])
      [constI "x" 1] initLowering = Done st1
    ∧ lowerLoop (buildConstMap [constI "x" 1; printI ["x"]])
        [constI "x" 1; printI ["x"]] initLowering
      = Done st2
    ∧ postCommitPrints st2 = postCommitPrints st1 ++ [printI ["x"]]
    ∧ length (guarded st2) = length (guarded st1) + 3.
Proof.
  destruct (C3_print_lowering (buildConstMap [constI "x" 1; printI ["x"]])
              [constI "x" 1] []
              {| op := "print"; dest := None; type := None; args := Some ["x"];
                 value := None; labels := None; funcs := None |}
              initLowering)
    as (st1 & st2 & H1 & H2 & _ & H4 & _).
  - split; repeat constructor.
  - reflexivity.
  - exists st1, st2. split; [exact H1|]. split; [exact H2|].
    destruct H4 as (Hq & Hlen & _).
    + intros a Ha. apply list_elem_of_singleton in Ha. subst a.
      exists (Some (VNum 1)). vm_compute. reflexivity.
    + split; [exact Hq | exact Hlen].
Defined.

(** The print of [printAfterCall] names a recorded constant, yet nothing is
    synthesised for it and it is not queued: the loop left at the call. *)
Lemma C3_print_after_call_not_lowered :
  (∀ StringToNumber, optimizeTrace StringToNumber printAfterCall = printAfterCall)
  ∧ printI ["x"] ∈ printAfterCall
  ∧ buildConstMap printAfterCall !! "x" = Some (Some (VNum 1))
  ∧ lowerLoop (buildConstMap printAfterCall) printAfterCall initLowering
    = Done {| guarded :=
                [constI "x" 1;
                 Op (constBool "_spec_false_0" false);
                 Op (guardOn "_spec_false_0")];
              postCommitPrints := [];
              synthCounter := 1 |}.
Proof.
  split; [intros f; vm_compute; reflexivity|].
  split; [repeat constructor|].
  split; [vm_compute; reflexivity|].
  reflexivity.
Qed.

(** In [brAfterCall] the br with a condition is not turned into a guard on
    it, and the br without a condition does not end the run. *)
Lemma C7_br_after_call_not_lowered :
  (∀ StringToNumber, optimizeTrace StringToNumber brAfterCall = brAfterCall)
  ∧ lowerLoop (buildConstMap brAfterCall) brAfterCall initLowering
    = Done {| guarded :=
                [Op (constBool "_spec_false_0" false);
                 Op (guardOn "_spec_false_0")];
              postCommitPrints := [];
              synthCounter := 1 |}.
Proof.
  split; [intros f; vm_compute; reflexivity | reflexivity].
Qed.

(** ** The speculative assembler *)

Lemma hasGuard_spec g : hasGuard g = true ↔ ∃ ins, ins ∈ g ∧ isGuard ins = true.
Proof.
  unfold hasGuard. rewrite existsb_exists.
  split; intros (x & Hx & Hg); exists x; split; try done; by apply list_elem_of_In.
Qed.

Lemma isGuard_spec ins : isGuard ins = true ↔ ∃ o, ins = Op o ∧ op o = "guard".
Proof.
  destruct ins as [l | o]; cbn [isGuard].
  - split; [discriminate | by intros (o & ? & _)].
  - rewrite String.eqb_eq. split; [eauto | by intros (o' & [= <-] & H)].
Qed.

Lemma boolDest_spec ins d :
  boolDest ins = Some d
  ↔ ∃ o, ins = Op o ∧ truthy (dest o) = Some d ∧ type o = Some (TPrim "bool").
Proof.
  destruct ins as [l | o]; cbn [boolDest].
  - split; [discriminate | by intros (o & ? & _)].
  - split.
    + intros H. exists o. split; [done|].
      destruct (truthy (dest o)) as [d'|]; [|discriminate].
      destruct (type o) as [[name | c t]|]; try discriminate.
      destruct (String.eqb name "bool") eqn:Hn.
      * apply String.eqb_eq in Hn. subst name. by injection H as ->.
      * exfalso. apply String.eqb_neq in Hn.
        repeat (destruct name as [|[[] [] [] [] [] [] [] []] name];
                try discriminate H; try (by apply Hn)).
    + intros (o' & [= <-] & -> & ->). reflexivity.
Qed.

Lemma scanDown_skip l1 l2 :
  (∀ x, x ∈ l1 → boolDest x = None) → scanDown (l1 ++ l2) = scanDown l2.
Proof.
  induction l1 as [|x l1 IH]; intros H; [reflexivity|].
  cbn [app scanDown]. rewrite (H x) by apply list_elem_of_here.
  apply IH. intros y Hy. apply H. by apply elem_of_cons; right.
Qed.

Lemma scanDown_none l : (∀ x, x ∈ l → boolDest x = None) → scanDown l = None.
Proof.
  intros H. rewrite <- (app_nil_r l). by rewrite scanDown_skip.
Qed.

(** The backward scan returns the last boolean-typed destination. *)
Lemma boolVar_last l1 ins l2 d :
  boolDest ins = Some d →
  (∀ x, x ∈ l2 → boolDest x = None) →
  boolVar (l1 ++ ins :: l2) = Some d.
Proof.
  intros Hd Hl2. unfold boolVar.
  rewrite rev_app_distr. cbn [rev]. rewrite <- app_assoc.
  rewrite scanDown_skip.
  - cbn [app scanDown]. by rewrite Hd.
  - intros x Hx. apply Hl2. by apply list_elem_of_In, in_rev, list_elem_of_In.
Qed.

Lemma boolVar_none g : (∀ x, x ∈ g → boolDest x = None) → boolVar g = None.
Proof.
  intros H. apply scanDown_none. intros x Hx. apply H.
  by apply list_elem_of_In, in_rev, list_elem_of_In.
Qed.

Lemma gatingGuard_has_guard g : ∃ ins, ins ∈ g ++ gatingGuard g ∧ isGuard ins = true.
Proof.
  unfold gatingGuard. destruct (hasGuard g) eqn:Hg.
  - apply hasGuard_spec in Hg as (ins & Hin & Hi).
    exists ins. split; [|done]. apply elem_of_app. by left.
  - destruct (boolVar g) as [b|].
    + exists (Op (guardOn b)). split; [|done].
      apply elem_of_app. right. apply list_elem_of_here.
    + exists (Op (guardOn guardVar)). split; [|done].
      apply elem_of_app. right. apply elem_of_cons. right. apply list_elem_of_here.
Qed.

Lemma hasGuard_false g : (∀ ins, ins ∈ g → isGuard ins = false) → hasGuard g = false.
Proof.
  intros H. destruct (hasGuard g) eqn:Hg; [|done].
  apply hasGuard_spec in Hg as (ins & Hin & Hi). rewrite (H ins Hin) in Hi. done.
Qed.

(** ** The whole run *)

Lemma findIndex_Some p fs i :
  findIndex p fs = Some i →
  ∃ f, fs !! i = Some f ∧ p f = true
       ∧ ∀ j g, (j < i)%nat → fs !! j = Some g → p g = false.
Proof.
  revert i. induction fs as [|f fs IH]; intros i; cbn [findIndex]; [discriminate|].
  destruct (p f) eqn:Hp.
  - intros [= <-]. exists f. split; [done|]. split; [done|]. intros j g Hj. lia.
  - destruct (findIndex p fs) as [k|]; [|discriminate].
    intros [= <-]. destruct (IH k eq_refl) as (f' & Hl & Hf & Hlt).
    exists f'. split; [done|]. split; [done|].
    intros [|j] g Hj Hg.
    + by injection Hg as <-.
    + apply (Hlt j g); [lia | done].
Qed.

(** What a successful run has gone through. *)
Lemma main_Done_inv StringToNumber rawTrace prog prog' :
  main StringToNumber rawTrace prog = Done prog' →
  ∃ low mainIdx origMain fallbackBody,
    rawTrace ≠ []
    ∧ lowerLoop (buildConstMap (optimizeTrace StringToNumber rawTrace))
        (optimizeTrace StringToNumber rawTrace) initLowering = Done low
    ∧ findIndex isMain (functions prog) = Some mainIdx
    ∧ functions prog !! mainIdx = Some origMain
    ∧ fn_instrs origMain = Some fallbackBody
    ∧ functions prog'
      = <[mainIdx := withInstrs origMain
                       (newInstrs (guarded low) (postCommitPrints low) fallbackBody)]>
          (functions prog).
Proof.
  unfold main. destruct rawTrace as [|x tr]; [discriminate|].
  destruct (lowerLoop _ _ _) as [low | msg | c] eqn:Hl; try discriminate.
  fold isMain.
  destruct (findIndex isMain (functions prog)) as [mainIdx|] eqn:Hf; [|discriminate].
  destruct (functions prog !! mainIdx) as [origMain|] eqn:Ho; [|discriminate].
  destruct (fn_instrs origMain) as [body|] eqn:Hb; [|discriminate].
  destruct (validateBrilProgram _); [|discriminate].
  intros [= <-]. exists low, mainIdx, origMain, body.
  split; [discriminate|]. by repeat split.
Qed.

(** A run succeeds when the trace has a line, the lowering ends normally,
    the program has a [main], and every function has an instruction list. *)
Lemma main_runs StringToNumber rawTrace prog low :
  rawTrace ≠ [] →
  lowerLoop (buildConstMap (optimizeTrace StringToNumber rawTrace))
    (optimizeTrace StringToNumber rawTrace) initLowering = Done low →
  (∃ f, f ∈ functions prog ∧ fn_name f = "main") →
  (∀ f, f ∈ functions prog → is_Some (fn_instrs f)) →
  ∃ prog', main StringToNumber rawTrace prog = Done prog'.
Proof.
  intros Hne Hl (f & Hf & Hname) Hall.
  unfold main. destruct rawTrace as [|x tr]; [done|]. rewrite Hl. fold isMain.
  destruct (findIndex isMain (functions prog)) as [mainIdx|] eqn:Hi.
  - destruct (findIndex_Some _ _ _ Hi) as (origMain & Ho & _). rewrite Ho.
    destruct (Hall origMain) as [body Hb]; [by eapply list_elem_of_lookup_2|].
    rewrite Hb.
    match goal with |- context [validateBrilProgram ?p] =>
      assert (validateBrilProgram p = true) as ->; [|by eexists] end.
    unfold validateBrilProgram. cbn [functions]. apply forallb_forall.
    intros g Hg%list_elem_of_In%list_elem_of_lookup. destruct Hg as [j Hj].
    apply list_lookup_insert_Some in Hj as [(-> & <- & _) | (Hne' & Hj)]; [done|].
    destruct (Hall g) as [b ->]; [by eapply list_elem_of_lookup_2 | done].
  - exfalso. clear -Hi Hf Hname. induction Hf as [f fs | f g fs Hf IH].
    + cbn [findIndex] in Hi. unfold isMain in Hi at 1.
      by rewrite Hname, String.eqb_refl in Hi.
    + cbn [findIndex] in Hi. destruct (isMain g); [done|].
      destruct (findIndex isMain fs); [done | by apply IH].
Qed.

(** A run that got through the lowering has label-free sequences. *)
Lemma lowered_ops constMap tr low :
  lowerLoop constMap tr initLowering = Done low →
  Forall (λ x, isOp x = true) (guarded low)
  ∧ Forall (λ x, isOp x = true) (postCommitPrints low).
Proof.
  intros H. by destruct (lowerLoop_Done_grow _ _ _ _ H)
    as ((g & -> & Hg) & (q & -> & Hq) & _).
Qed.

Lemma newInstrs_fastPath g prints body :
  newInstrs g prints body = fastPath g prints ++ Label ".bail" :: fallbackInstrs body.
Proof. unfold newInstrs, fastPath. by rewrite <- !app_assoc. Qed.

Lemma fastPath_ops g prints :
  Forall (λ x, isOp x = true) g →
  Forall (λ x, isOp x = true) prints →
  Forall (λ x, isOp x = true) (fastPath g prints).
Proof.
  intros Hg Hp. unfold fastPath, gatingGuard.
  repeat (apply Forall_app; split); try done; try (by repeat constructor).
  destruct (hasGuard g); [constructor|].
  destruct (boolVar g); by repeat constructor.
Qed.

Lemma endsInRet_spec body :
  endsInRet body = true ↔ ∃ o, last body = Some (Op o) ∧ op o = "ret".
Proof.
  unfold endsInRet. destruct (last body) as [[l | o]|].
  - split; [discriminate | by intros (o & ? & _)].
  - rewrite String.eqb_eq. split; [eauto | by intros (o' & [= <-] & H)].
  - split; [discriminate | by intros (o & ? & _)].
Qed.

Lemma fallbackInstrs_ends_in_ret body :
  ∃ o, last (fallbackInstrs body) = Some (Op o) ∧ op o = "ret".
Proof.
  unfold fallbackInstrs. destruct (endsInRet body) eqn:He.
  - by apply endsInRet_spec.
  - exists (bareOp "ret"). by rewrite last_snoc.
Qed.

(** The run of the scenario on the sample program. *)
Lemma sample_run StringToNumber :
  main StringToNumber scenario sampleProgram = Done sampleOutput.
Proof. reflexivity. Qed.

Lemma main_newMain StringToNumber rawTrace prog prog' :
  main StringToNumber rawTrace prog = Done prog' →
  ∃ low mainIdx origMain fallbackBody,
    findIndex isMain (functions prog) = Some mainIdx
    ∧ functions prog !! mainIdx = Some origMain
    ∧ fn_name origMain = "main"
    ∧ fn_instrs origMain = Some fallbackBody
    ∧ functions prog'
      = <[mainIdx := withInstrs origMain
                       (newInstrs (guarded low) (postCommitPrints low) fallbackBody)]>
          (functions prog)
    ∧ functions prog' !! mainIdx
      = Some (withInstrs origMain
                (newInstrs (guarded low) (postCommitPrints low) fallbackBody))
    ∧ Forall (λ x, isOp x = true) (guarded low)
    ∧ Forall (λ x, isOp x = true) (postCommitPrints low).
Proof.
  intros H. apply main_Done_inv in H
    as (low & mainIdx & origMain & body & _ & Hl & Hf & Ho & Hb & Hp).
  exists low, mainIdx, origMain, body.
  destruct (findIndex_Some _ _ _ Hf) as (f & Hf1 & Hf2 & _).
  rewrite Ho in Hf1. injection Hf1 as <-.
  split; [done|]. split; [done|].
  split; [by apply String.eqb_eq|]. split; [done|]. split; [done|].
  split.
  - rewrite Hp. apply list_lookup_insert_eq. by eapply lookup_lt_Some.
  - by apply lowered_ops in Hl.
Qed.

Lemma no_boolDest (l : list Instr) :
  (∀ o d, Op o ∈ l → truthy (dest o) = Some d → type o ≠ Some (TPrim "bool")) →
  ∀ x, x ∈ l → boolDest x = None.
Proof.
  intros H x Hx. destruct (boolDest x) as [d|] eqn:Hd; [|done].
  apply boolDest_spec in Hd as (o & -> & Hd & Ht). by destruct (H o d Hx Hd).
Qed.

(** C5. The assembled body is [speculate], the guarded sequence, the gating
    guard, [commit], and the rest; the part between the two markers always
    holds a guard.  When the guarded sequence has a guard nothing is added;
    otherwise the guard added is on the last destination of the guarded
    sequence that is typed bool, or, if there is none, on a new boolean
    constant true.  In every successful run the new body of [main] has this
    shape. *)
Theorem C5_gating_guard (g prints body : list Instr) :
  newInstrs g prints body
  = [Op (bareOp "speculate")] ++ (g ++ gatingGuard g) ++ [Op (bareOp "commit")]
    ++ prints ++ [Op (bareOp "ret")] ++ [Label ".bail"] ++ fallbackInstrs body
  ∧ (∃ o, Op o ∈ g ++ gatingGuard g ∧ op o = "guard")
  ∧ ((∃ o, Op o ∈ g ∧ op o = "guard") → gatingGuard g = [])
  ∧ ((∀ o, Op o ∈ g → op o ≠ "guard") →
       (∀ l1 o l2 d,
           g = l1 ++ Op o :: l2 →
           truthy (dest o) = Some d → type o = Some (TPrim "bool") →
           (∀ o' d', Op o' ∈ l2 → truthy (dest o') = Some d' →
                     type o' ≠ Some (TPrim "bool")) →
           gatingGuard g
           = [Op {| op := "guard"; dest := None; type := None; args := Some [d];
                    value := None; labels := Some [".bail"]; funcs := None |}])
       ∧ ((∀ o' d', Op o' ∈ g → truthy (dest o') = Some d' →
                    type o' ≠ Some (TPrim "bool")) →
          gatingGuard g
          = [Op {| op := "const"; dest := Some "_spec_true_guard";
                   type := Some (TPrim "bool"); args := None;
                   value := Some (VBool true); labels := None; funcs := None |};
             Op {| op := "guard"; dest := None; type := None;
                   args := Some ["_spec_true_guard"]; value := None;
                   labels := Some [".bail"]; funcs := None |}]))
  ∧ (∀ StringToNumber rawTrace prog prog',
       main StringToNumber rawTrace prog = Done prog' →
       ∃ mainIdx newMain mid rest o,
         findIndex isMain (functions prog) = Some mainIdx
         ∧ functions prog' !! mainIdx = Some newMain
         ∧ fn_instrs newMain
           = Some ([Op (bareOp "speculate")] ++ mid ++ [Op (bareOp "commit")] ++ rest)
         ∧ Op o ∈ mid ∧ op o = "guard").
Proof.
  assert (Hhas : ∀ g', ∃ o, Op o ∈ g' ++ gatingGuard g' ∧ op o = "guard").
  { intros g'. destruct (gatingGuard_has_guard g') as (ins & Hin & Hi).
    apply isGuard_spec in Hi as (o & -> & Ho). by exists o. }
  split; [unfold newInstrs; by rewrite <- !app_assoc|].
  split; [apply Hhas|]. split; [|split].
  - intros (o & Hin & Ho). unfold gatingGuard.
    assert (hasGuard g = true) as ->; [|done].
    apply hasGuard_spec. exists (Op o). split; [done|].
    apply isGuard_spec. by exists o.
  - intros Hno.
    assert (Hg : hasGuard g = false).
    { apply hasGuard_false. intros ins Hin.
      destruct (isGuard ins) eqn:Hi; [|done].
      apply isGuard_spec in Hi as (o & -> & Ho). by destruct (Hno o Hin). }
    unfold gatingGuard. rewrite Hg. split.
    + intros l1 o l2 d -> Hd Ht Hl2.
      rewrite (boolVar_last l1 (Op o) l2 d); [done | |by apply no_boolDest].
      apply boolDest_spec. by exists o.
    + intros Hnone. by rewrite boolVar_none by by apply no_boolDest.
  - intros f tr prog prog' Hm.
    apply main_newMain in Hm
      as (low & mainIdx & origMain & fb & Hf & _ & _ & _ & _ & Hn & _).
    destruct (Hhas (guarded low)) as (o & Hin & Ho).
    exists mainIdx, (withInstrs origMain
                       (newInstrs (guarded low) (postCommitPrints low) fb)),
      (guarded low ++ gatingGuard (guarded low)),
      (postCommitPrints low ++ [Op (bareOp "ret")] ++ [Label ".bail"]
       ++ fallbackInstrs fb), o.
    split; [done|]. split; [done|]. split; [|done].
    cbn [withInstrs fn_instrs]. unfold newInstrs. by rewrite <- !app_assoc.
Qed.

Lemma C5_gating_guard_witness :
  ∃ mainIdx newMain mid rest o,
    findIndex isMain (functions sampleProgram) = Some mainIdx
    ∧ functions sampleOutput !! mainIdx = Some newMain
    ∧ fn_instrs newMain
      = Some ([Op (bareOp "speculate")] ++ mid ++ [Op (bareOp "commit")] ++ rest)
    ∧ Op o ∈ mid ∧ op o = "guard".
Proof.
  destruct (C5_gating_guard [] [] []) as (_ & _ & _ & _ & H).
  exact (H noNumber scenario sampleProgram sampleOutput (sample_run noNumber)).
Defined.

(** C6. What follows the bail label in the assembled body is the original
    instruction sequence, with a ret appended exactly when that sequence
    does not end in an operation whose opcode is ret; so the body always
    ends in a ret.  In every successful run this is the body of the
    original [main], and the bail label is the first label of the new
    body. *)
Theorem C6_fallback (g prints body : list Instr) :
  newInstrs g prints body
  = ([Op (bareOp "speculate")] ++ g ++ gatingGuard g ++ [Op (bareOp "commit")]
     ++ prints ++ [Op (bareOp "ret")])
    ++ Label ".bail" :: fallbackInstrs body
  ∧ fallbackInstrs body
    = body ++ (if endsInRet body then []
               else [Op {| op := "ret"; dest := None; type := None; args := None;
                           value := None; labels := None; funcs := None |}])
  ∧ (endsInRet body = true ↔ ∃ o, last body = Some (Op o) ∧ op o = "ret")
  ∧ (∃ o, last (fallbackInstrs body) = Some (Op o) ∧ op o = "ret")
  ∧ (∃ o, last (newInstrs g prints body) = Some (Op o) ∧ op o = "ret")
  ∧ (∀ StringToNumber rawTrace prog prog',
       main StringToNumber rawTrace prog = Done prog' →
       ∃ mainIdx origMain fallbackBody newMain pre,
         findIndex isMain (functions prog) = Some mainIdx
         ∧ functions prog !! mainIdx = Some origMain
         ∧ fn_instrs origMain = Some fallbackBody
         ∧ functions prog' !! mainIdx = Some newMain
         ∧ fn_instrs newMain
           = Some (pre ++ Label ".bail" :: fallbackInstrs fallbackBody)
         ∧ ∀ l, Label l ∉ pre).
Proof.
  split; [apply newInstrs_fastPath|].
  split; [unfold fallbackInstrs; destruct (endsInRet body);
          [by rewrite app_nil_r | done]|].
  split; [apply endsInRet_spec|].
  split; [apply fallbackInstrs_ends_in_ret|].
  split.
  - destruct (fallbackInstrs_ends_in_ret body) as (o & Hl & Ho).
    exists o. split; [|done].
    rewrite newInstrs_fastPath, last_app, last_cons. by rewrite Hl.
  - intros f tr prog prog' Hm.
    apply main_newMain in Hm
      as (low & mainIdx & origMain & fb & Hf & Ho & _ & Hb & _ & Hn & Hg & Hq).
    exists mainIdx, origMain, fb,
      (withInstrs origMain (newInstrs (guarded low) (postCommitPrints low) fb)),
      (fastPath (guarded low) (postCommitPrints low)).
    split; [done|]. split; [done|]. split; [done|]. split; [done|].
    split; [cbn [withInstrs fn_instrs]; by rewrite newInstrs_fastPath|].
    intros l Hl. pose proof (fastPath_ops _ _ Hg Hq) as Hops.
    rewrite Forall_forall in Hops. by apply Hops in Hl.
Qed.

Lemma C6_fallback_witness :
  ∃ mainIdx origMain fallbackBody newMain pre,
    findIndex isMain (functions sampleProgram) = Some mainIdx
    ∧ functions sampleProgram !! mainIdx = Some origMain
    ∧ fn_instrs origMain = Some fallbackBody
    ∧ functions sampleOutput !! mainIdx = Some newMain
    ∧ fn_instrs newMain
      = Some (pre ++ Label ".bail" :: fallbackInstrs fallbackBody)
    ∧ ∀ l, Label l ∉ pre.
Proof.
  destruct (C6_fallback [] [] []) as (_ & _ & _ & _ & _ & H).
  exact (H noNumber scenario sampleProgram sampleOutput (sample_run noNumber)).
Defined.

(** C9. A successful run rewrites the first function named [main] and
    nothing else: the output has as many functions as the input, every
    function at another position is the one the input has there, and the
    new [main] keeps the name, the parameters and the return type of the
    original. *)
Theorem C9_only_main_replaced StringToNumber (rawTrace : list Instr)
    (prog prog' : Program) :
  main StringToNumber rawTrace prog = Done prog' →
  ∃ mainIdx origMain newMain,
    findIndex isMain (functions prog) = Some mainIdx
    ∧ functions prog !! mainIdx = Some origMain
    ∧ functions prog' !! mainIdx = Some newMain
    ∧ fn_name origMain = "main"
    ∧ fn_name newMain = fn_name origMain
    ∧ fn_args newMain = fn_args origMain
    ∧ fn_type newMain = fn_type origMain
    ∧ length (functions prog') = length (functions prog)
    ∧ ∀ j, j ≠ mainIdx → functions prog' !! j = functions prog !! j.
Proof.
  intros Hm. apply main_newMain in Hm
    as (low & mainIdx & origMain & fb & Hf & Ho & Hname & _ & Hp & Hn & _).
  exists mainIdx, origMain,
    (withInstrs origMain (newInstrs (guarded low) (postCommitPrints low) fb)).
  repeat (split; [done|]).
  split; [by rewrite Hp, length_insert|].
  intros j Hj. rewrite Hp. by apply list_lookup_insert_ne.
Qed.

Lemma C9_only_main_replaced_witness :
  ∃ mainIdx origMain newMain,
    findIndex isMain (functions sampleProgram) = Some mainIdx
    ∧ functions sampleProgram !! mainIdx = Some origMain
    ∧ functions sampleOutput !! mainIdx = Some newMain
    ∧ fn_name origMain = "main"
    ∧ fn_name newMain = fn_name origMain
    ∧ fn_args newMain = fn_args origMain
    ∧ fn_type newMain = fn_type origMain
    ∧ length (functions sampleOutput)
      = length (functions sampleProgram)
    ∧ ∀ j, j ≠ mainIdx →
        functions sampleOutput !! j
        = functions sampleProgram !! j.
Proof.
  exact (C9_only_main_replaced noNumber scenario sampleProgram sampleOutput (sample_run noNumber)).
Defined.

(** ** Labels in a trace *)

Lemma filter_isOp_idem (l : list Instr) :
  List.filter isOp (List.filter isOp l) = List.filter isOp l.
Proof. by apply filter_filter_implied. Qed.

Lemma no_label_of_ops (l : list Instr) :
  Forall (λ x, isOp x = true) l → ∀ name, Label name ∉ l.
Proof.
  intros H name Hin. rewrite Forall_forall in H. by apply H in Hin.
Qed.

(** C10. Label entries are skipped by both passes: the reducer and the
    lowering loop return on a trace what they return on the trace without
    its labels, so a label is never what ends a run; no label is in the
    reduced trace, and none is in the guarded sequence or in the queue of
    deferred prints.  A whole run on a trace with labels after its first
    line ends as the run on the trace without them. *)
Theorem C10_labels_skipped StringToNumber (instrs : list Instr) (constMap : Env)
    (st : Lowering) :
  optimizeTrace StringToNumber instrs
  = optimizeTrace StringToNumber (List.filter isOp instrs)
  ∧ (∀ name, Label name ∉ optimizeTrace StringToNumber instrs)
  ∧ lowerLoop constMap instrs st = lowerLoop constMap (List.filter isOp instrs) st
  ∧ match lowerLoop constMap instrs initLowering with
    | Done low =>
        (∀ name, Label name ∉ guarded low)
        ∧ (∀ name, Label name ∉ postCommitPrints low)
    | Throw _ | Exit _ => True
    end
  ∧ (∀ name rest, lowerLoop constMap (Label name :: rest) st
                  = lowerLoop constMap rest st)
  ∧ (∀ x prog,
       main StringToNumber (x :: instrs) prog
       = main StringToNumber (x :: List.filter isOp instrs) prog).
Proof.
  split; [apply optimizeTrace_skip_labels|].
  split; [apply no_label_of_ops, optimizeTrace_ops|].
  split; [apply lowerLoop_skip_labels|].
  split; [|split; [reflexivity|]].
  - destruct (lowerLoop constMap instrs initLowering) as [low | |] eqn:Hl; [|done..].
    apply lowered_ops in Hl as [Hg Hq].
    split; by apply no_label_of_ops.
  - intros x prog.
    assert (E : optimizeTrace StringToNumber (x :: instrs)
                = optimizeTrace StringToNumber (x :: List.filter isOp instrs)).
    { rewrite (optimizeTrace_skip_labels _ (x :: instrs)),
        (optimizeTrace_skip_labels _ (x :: List.filter isOp instrs)).
      cbn [List.filter]. by rewrite filter_isOp_idem. }
    unfold main. by rewrite E.
Qed.

(** ** The scenario *)

(** C8, amended. On the scenario trace the reducer folds the add into
    [const c = 7] and drops the constants [a] and [b], which nothing uses
    any more, so that two instructions are left; the lowering emits
    [const _spec_exp_0 = 7], [eq _spec_cmp_1 = c _spec_exp_0] and
    [guard _spec_cmp_1 .bail] for the print and queues the print; the
    assembled body is speculate, the constant [c], these three, commit, the
    print, ret, the bail label, and the original body with a ret appended
    when it does not end in one. *)
Theorem C8_scenario StringToNumber (fallbackBody : list Instr) :
  optimizeTrace StringToNumber scenario = [constI "c" 7; printI ["c"]]
  ∧ lowerLoop (buildConstMap (optimizeTrace StringToNumber scenario))
      (optimizeTrace StringToNumber scenario) initLowering
    = Done {| guarded := scenarioGuarded;
              postCommitPrints := [printI ["c"]];
              synthCounter := 2 |}
  ∧ newInstrs scenarioGuarded [printI ["c"]] fallbackBody
    = scenarioBody (fallbackInstrs fallbackBody)
  ∧ main StringToNumber scenario sampleProgram = Done sampleOutput.
Proof.
  split; [reflexivity|]. split; [reflexivity|]. split; [reflexivity|].
  apply sample_run.
Qed.

(** The reducer does not keep the four instructions of the scenario. *)
Lemma C8_reducer_keeps_two :
  (∀ StringToNumber,
      optimizeTrace StringToNumber scenario = [constI "c" 7; printI ["c"]])
  ∧ ¬ (∃ StringToNumber, optimizeTrace StringToNumber scenario = scenario).
Proof.
  split; [reflexivity|]. intros (f & H). discriminate H.
Qed.

Lemma C1_fold_pass_witness :
  (foldPass noNumber scenario).2
  = [constI "a" 3; constI "b" 4; constI "c" 7; printI ["c"]].
Proof.
  destruct (C1_fold_pass noNumber [constI "a" 3; constI "b" 4] [printI ["c"]]
              {| op := "add"; dest := Some "c"; type := Some (TPrim "int");
                 args := Some ["a"; "b"]; value := None; labels := None;
                 funcs := None |} eq_refl) as [H _].
  destruct (H "c" (VNum 3) (VNum 4) eq_refl eq_refl eq_refl)
    as (val & Hadd & _ & _ & _ & Hsplit).
  rewrite (Hadd eq_refl) in Hsplit. exact Hsplit.
Defined.

(** * Further properties *)

(** ** [traceToGuarded] *)

Lemma traceToGuardedLoop_out trace bail out :
  traceToGuardedLoop trace bail out
  = match traceToGuardedLoop trace bail [] with
    | Done new => Done (out ++ new)
    | Throw msg => Throw msg
    | Exit c => Exit c
    end.
Proof.
  revert out. induction trace as [|x trace IH]; intros out; cbn [traceToGuardedLoop].
  - by rewrite app_nil_r.
  - destruct x as [l | i]; [apply IH|].
    destruct (String.eqb (op i) "jmp"); [apply IH|].
    destruct (String.eqb (op i) "br").
    + destruct (condVarOf i) as [c|]; [|done].
      rewrite IH, (IH ([] ++ _)).
      destruct (traceToGuardedLoop trace bail []); [|done..].
      by rewrite app_assoc.
    + rewrite IH, (IH ([] ++ _)).
      destruct (traceToGuardedLoop trace bail []); [|done..].
      by rewrite app_assoc.
Qed.

Lemma traceToGuarded_cons x trace bail :
  traceToGuarded (x :: trace) bail
  = match x with
    | Label _ => traceToGuarded trace bail
    | Op i =>
        if String.eqb (op i) "jmp" then traceToGuarded trace bail
        else if String.eqb (op i) "br" then
          match condVarOf i with
          | None => Throw "br in trace without condition arg"
          | Some c =>
              match traceToGuarded trace bail with
              | Done new => Done (Op (guardInstr c bail) :: new)
              | Throw msg => Throw msg
              | Exit code => Exit code
              end
          end
        else match traceToGuarded trace bail with
             | Done new => Done (x :: new)
             | Throw msg => Throw msg
             | Exit code => Exit code
             end
    end.
Proof.
  unfold traceToGuarded. cbn [traceToGuardedLoop].
  destruct x as [l | i]; [done|].
  destruct (String.eqb (op i) "jmp"); [done|].
  destruct (String.eqb (op i) "br").
  - destruct (condVarOf i) as [c|]; [|done]. by rewrite traceToGuardedLoop_out.
  - by rewrite traceToGuardedLoop_out.
Qed.

(** X1. [traceToGuarded] raises exactly when some br of the trace, wherever
    it stands, has no condition; otherwise it returns, for the operations
    of the trace other than jmp and in their order, the operation itself
    or, for a br, a guard on its condition that targets the given label.
    Labels and jmps leave no trace in the result. *)
Theorem X1_traceToGuarded_total (trace : list Instr) (bail : string) :
  match traceToGuarded trace bail with
  | Done out =>
      Forall (λ x, isBadBr x = false) trace
      ∧ Forall2 (guardedAs bail) (List.filter isCarried trace) out
  | Throw msg =>
      msg = "br in trace without condition arg"
      ∧ ∃ o, Op o ∈ trace ∧ op o = "br" ∧ condVarOf o = None
  | Exit _ => False
  end.
Proof.
  induction trace as [|x trace IH].
  - cbn. split; constructor.
  - rewrite traceToGuarded_cons. destruct x as [l | i].
    + destruct (traceToGuarded trace bail) as [out | msg | c]; [| |done].
      * destruct IH as [Hb Hf]. split; [by constructor | done].
      * destruct IH as (-> & o & Ho & Hrest). split; [done|].
        exists o. split; [by apply elem_of_cons; right | done].
    + cbn [List.filter isCarried].
      destruct (String.eqb (op i) "jmp") eqn:Hj.
      { apply String.eqb_eq in Hj. cbn [negb].
        destruct (traceToGuarded trace bail) as [out | msg | c]; [| |done].
        - destruct IH as [Hb Hf]. split; [|done]. constructor; [|done].
          cbn [isBadBr]. by rewrite Hj.
        - destruct IH as (-> & o & Ho & Hrest). split; [done|].
          exists o. split; [by apply elem_of_cons; right | done]. }
      cbn [negb]. destruct (String.eqb (op i) "br") eqn:Hbr.
      * destruct (condVarOf i) as [c|] eqn:Hc.
        -- destruct (traceToGuarded trace bail) as [out | msg | code]; [| |done].
           ++ destruct IH as [Hb Hf]. split.
              ** constructor; [|done]. cbn [isBadBr]. by rewrite Hbr, Hc.
              ** constructor; [|done]. cbn [guardedAs]. rewrite Hbr. by exists c.
           ++ destruct IH as (-> & o & Ho & Hrest). split; [done|].
              exists o. split; [by apply elem_of_cons; right | done].
        -- split; [done|]. exists i. apply String.eqb_eq in Hbr.
           split; [apply list_elem_of_here | done].
      * destruct (traceToGuarded trace bail) as [out | msg | code]; [| |done].
        -- destruct IH as [Hb Hf]. split.
           ++ constructor; [|done]. cbn [isBadBr]. by rewrite Hbr.
           ++ constructor; [|done]. cbn [guardedAs]. by rewrite Hbr.
        -- destruct IH as (-> & o & Ho & Hrest). split; [done|].
           exists o. split; [by apply elem_of_cons; right | done].
Qed.

Lemma lowerLoop_as_traceToGuarded constMap trace st :
  Forall (λ x, isStop x = false ∧ isPrint x = false) trace →
  lowerLoop constMap trace st
  = match traceToGuardedLoop trace ".bail" (guarded st) with
    | Done g => Done {| guarded := g; postCommitPrints := postCommitPrints st;
                        synthCounter := synthCounter st |}
    | Throw msg => Throw msg
    | Exit c => Exit c
    end.
Proof.
  intros H. revert st. induction H as [|x trace [Hs Hp] _ IH]; intros st.
  - by destruct st.
  - destruct x as [l | i]; cbn [lowerLoop traceToGuardedLoop]; [apply IH|].
    cbn [isStop isPrint] in Hs, Hp. rewrite Hs, Hp.
    destruct (String.eqb (op i) "jmp"); [apply IH|].
    destruct (String.eqb (op i) "br").
    + destruct (condVarOf i) as [c|]; [|done]. by rewrite IH.
    + by rewrite IH.
Qed.

(** X2. On a trace without call, ret and print, the loop of [main] does what
    [traceToGuarded] does with the label [.bail]: it raises when
    [traceToGuarded] raises, and otherwise its guarded sequence is the
    result of [traceToGuarded], its queue is empty and no name has been
    synthesised. *)
Theorem X2_lowering_agrees_with_traceToGuarded constMap (trace : list Instr) :
  Forall (λ x, isStop x = false ∧ isPrint x = false) trace →
  lowerLoop constMap trace initLowering
  = match traceToGuarded trace ".bail" with
    | Done g => Done {| guarded := g; postCommitPrints := []; synthCounter := 0 |}
    | Throw msg => Throw msg
    | Exit c => Exit c
    end.
Proof. intros H. by rewrite lowerLoop_as_traceToGuarded. Qed.

Lemma X2_lowering_agrees_with_traceToGuarded_witness :
  lowerLoop ∅ [constI "x" 1; brI ["c"]] initLowering
  = match traceToGuarded [constI "x" 1; brI ["c"]] ".bail" with
    | Done g => Done {| guarded := g; postCommitPrints := []; synthCounter := 0 |}
    | Throw msg => Throw msg
    | Exit c => Exit c
    end.
Proof.
  apply X2_lowering_agrees_with_traceToGuarded. repeat constructor.
Defined.

(** ** An induction principle for the loop of [main] *)

Lemma printArgs_invariant constMap (J : Lowering → Prop) xs st b :
  (∀ s val a, a ∈ xs → constMap !! a = Some val → J s → J (checkArg val a s)) →
  (∀ s, J s → J (forceBail s)) →
  J st → J (fold_left (printArgStep constMap) xs (st, b)).1.
Proof.
  intros Hc Hb. revert st b. induction xs as [|a xs IH]; intros st b Hst; [done|].
  cbn [fold_left]. destruct (constMap !! a) as [val|] eqn:Ha.
  - rewrite (printArgStep_known _ _ _ _ _ Ha). apply IH.
    + intros s v x Hx. apply Hc. by apply elem_of_cons; right.
    + apply (Hc st val a); [apply list_elem_of_here | done..].
  - rewrite (printArgStep_unknown _ _ _ _ Ha). apply IH.
    + intros s v x Hx. apply Hc. by apply elem_of_cons; right.
    + by apply Hb.
Qed.

Lemma printArgs_bail constMap xs st b :
  (fold_left (printArgStep constMap) xs (st, b)).2
  = b || negb (forallb (λ a, match constMap !! a with Some _ => true | None => false end) xs).
Proof.
  revert st b. induction xs as [|a xs IH]; intros st b; cbn [fold_left forallb].
  - cbn. by rewrite orb_false_r.
  - destruct (constMap !! a) as [val|] eqn:Ha.
    + rewrite (printArgStep_known _ _ _ _ _ Ha). by rewrite IH.
    + rewrite (printArgStep_unknown _ _ _ _ Ha), printArgs_bail_sticky.
      cbn. by rewrite orb_true_r.
Qed.

(** A print is queued exactly when all its arguments are recorded. *)
Lemma lowerPrint_cases constMap ins st :
  op ins = "print" →
  lowerPrint constMap ins st
  = if isQueued constMap (Op ins)
    then queuePrint (fold_left (printArgStep constMap) (printedArgs ins) (st, false)).1 ins
    else (fold_left (printArgStep constMap) (printedArgs ins) (st, false)).1.
Proof.
  intros Hp. unfold lowerPrint. cbn [isQueued].
  rewrite (proj2 (String.eqb_eq _ _) Hp). cbn [andb].
  change (match args ins with Some xs => xs | None => [] end) with (printedArgs ins).
  pose proof (printArgs_bail constMap (printedArgs ins) st false) as Hb.
  destruct (fold_left _ _ _) as [st' b]. cbn [fst snd] in *. subst b.
  cbn [orb]. by destruct (forallb _ _).
Qed.

(** A property of the processed prefix and the state that every kind of
    step keeps holds when the loop ends normally. *)
Lemma lowerLoop_invariant constMap (I : list Instr → Lowering → Prop) :
  (∀ pre st name, I pre st → I (pre ++ [Label name]) st) →
  (∀ pre st x, op x = "jmp" → I pre st → I (pre ++ [Op x]) st) →
  (∀ pre st x, isCallRet (op x) = true → I pre st → I (pre ++ [Op x]) (forceBail st)) →
  (∀ pre st x c, op x = "br" → condVarOf x = Some c → I pre st →
                 I (pre ++ [Op x]) (pushGuarded st [Op (guardOn c)])) →
  (∀ pre st val a, constMap !! a = Some val → I pre st → I pre (checkArg val a st)) →
  (∀ pre st, I pre st → I pre (forceBail st)) →
  (∀ pre st x, op x = "print" → isQueued constMap (Op x) = false →
               I pre st → I (pre ++ [Op x]) st) →
  (∀ pre st x, op x = "print" → isQueued constMap (Op x) = true →
               I pre st → I (pre ++ [Op x]) (queuePrint st x)) →
  (∀ pre st x, isKept (Op x) = true → I pre st →
               I (pre ++ [Op x]) (pushGuarded st [Op x])) →
  ∀ trace pre st st',
    I pre st →
    lowerLoop constMap trace st = Done st' →
    ∃ seen rest, trace = seen ++ rest ∧ I (pre ++ seen) st'
                 ∧ (rest = [] ∨ ∃ s x, seen = s ++ [x] ∧ isStop x = true).
Proof.
  intros Hlabel Hjmp Hstop Hbr Hcheck Hbail Hskip Hqueue Hkeep.
  induction trace as [|x trace IH]; intros pre st st' Hst Hrun.
  - injection Hrun as <-. exists [], [].
    split; [done|]. split; [by rewrite app_nil_r | by left].
  - assert (Hnext : ∀ st1, I (pre ++ [x]) st1 →
                    lowerLoop constMap trace st1 = Done st' →
                    ∃ seen rest, x :: trace = seen ++ rest ∧ I (pre ++ seen) st'
                      ∧ (rest = [] ∨ ∃ s y, seen = s ++ [y] ∧ isStop y = true)).
    { intros st1 H1 Hr. destruct (IH _ _ _ H1 Hr) as (d & r & -> & Hd & Hend).
      exists (x :: d), r. split; [done|].
      split; [by rewrite <- app_assoc in Hd|].
      destruct Hend as [-> | (s & y & -> & Hy)]; [by left | right].
      by exists (x :: s), y. }
    destruct x as [name | i]; cbn [lowerLoop] in Hrun.
    { by apply (Hnext st); [apply Hlabel|]. }
    destruct (String.eqb (op i) "jmp") eqn:Hj.
    { apply String.eqb_eq in Hj. by apply (Hnext st); [apply Hjmp|]. }
    destruct (isCallRet (op i)) eqn:Hcr.
    { injection Hrun as <-. exists [Op i], trace. split; [done|].
      split; [by apply Hstop | right]. by exists [], (Op i). }
    destruct (String.eqb (op i) "br") eqn:Hb.
    { apply String.eqb_eq in Hb. destruct (condVarOf i) as [c|] eqn:Hc; [|done].
      by apply (Hnext (pushGuarded st [Op (guardOn c)])); [apply Hbr|]. }
    destruct (String.eqb (op i) "print") eqn:Hp.
    { apply String.eqb_eq in Hp.
      apply (Hnext (lowerPrint constMap i st)); [|done].
      assert (Hin : I pre (fold_left (printArgStep constMap) (printedArgs i)
                             (st, false)).1).
      { apply (printArgs_invariant constMap (I pre)); [|by apply Hbail|done].
        intros s val a _ Ha. by apply Hcheck. }
      rewrite (lowerPrint_cases constMap i st Hp).
      destruct (isQueued constMap (Op i)) eqn:Hq;
        [by apply Hqueue | by apply Hskip]. }
    apply (Hnext (pushGuarded st [Op i])); [|done].
    apply Hkeep; [|done]. cbn [isKept]. by rewrite Hj, Hcr, Hb, Hp.
Qed.

Lemma reached_no_stop trace : Forall (λ x, isStop x = false) (reached trace).
Proof.
  induction trace as [|x trace IH]; cbn [reached]; [constructor|].
  destruct (isStop x) eqn:Hx; by constructor.
Qed.

Lemma reached_split trace :
  reached trace = trace
  ∨ ∃ x post, trace = reached trace ++ x :: post ∧ isStop x = true.
Proof.
  induction trace as [|x trace IH]; cbn [reached]; [by left|].
  destruct (isStop x) eqn:Hx.
  - right. by exists x, trace.
  - destruct IH as [-> | (y & post & Ht & Hy)]; [by left | right].
    exists y, post. split; [|done]. cbn [app]. by rewrite <- Ht.
Qed.

(** A normal end of the loop is the normal end on the reached part,
    followed by the bail pair when a call or ret was met. *)
Lemma lowerLoop_reached constMap trace st st' :
  lowerLoop constMap trace st = Done st' →
  ∃ st1, lowerLoop constMap (reached trace) st = Done st1
         ∧ (reached trace = trace ∧ st' = st1
            ∨ (∃ x post, trace = reached trace ++ x :: post ∧ isStop x = true)
              ∧ st' = forceBail st1).
Proof.
  intros Hrun. destruct (reached_split trace) as [Heq | (x & post & Ht & Hx)].
  - exists st'. rewrite Heq. split; [done | by left].
  - pose proof (reached_no_stop trace) as Hns.
    rewrite Ht, lowerLoop_app in Hrun by done.
    destruct (lowerLoop constMap (reached trace) st) as [st1 | |]; [|done..].
    exists st1. split; [done|]. right. split; [by exists x, post|].
    destruct x as [l | i]; [done|]. cbn [isStop] in Hx. cbn [lowerLoop] in Hrun.
    rewrite Hx in Hrun. destruct (String.eqb (op i) "jmp") eqn:Hj.
    + apply String.eqb_eq in Hj. by rewrite Hj in Hx.
    + by injection Hrun as <-.
Qed.

(** The principle on a part without call and ret: the whole part is
    processed. *)
Lemma lowerLoop_reached_invariant constMap (I : list Instr → Lowering → Prop) :
  (∀ pre st name, I pre st → I (pre ++ [Label name]) st) →
  (∀ pre st x, op x = "jmp" → I pre st → I (pre ++ [Op x]) st) →
  (∀ pre st x c, op x = "br" → condVarOf x = Some c → I pre st →
                 I (pre ++ [Op x]) (pushGuarded st [Op (guardOn c)])) →
  (∀ pre st val a, constMap !! a = Some val → I pre st → I pre (checkArg val a st)) →
  (∀ pre st, I pre st → I pre (forceBail st)) →
  (∀ pre st x, op x = "print" → isQueued constMap (Op x) = false →
               I pre st → I (pre ++ [Op x]) st) →
  (∀ pre st x, op x = "print" → isQueued constMap (Op x) = true →
               I pre st → I (pre ++ [Op x]) (queuePrint st x)) →
  (∀ pre st x, isKept (Op x) = true → I pre st →
               I (pre ++ [Op x]) (pushGuarded st [Op x])) →
  ∀ trace st st',
    Forall (λ x, isStop x = false) trace →
    I [] st →
    lowerLoop constMap trace st = Done st' →
    I trace st'.
Proof.
  intros Hlabel Hjmp Hbr Hcheck Hbail Hskip Hqueue Hkeep trace st st' Hns Hst Hrun.
  destruct (lowerLoop_invariant constMap
              (λ pre s, Forall (λ x, isStop x = false) pre → I pre s))
    with (trace := trace) (pre := @nil Instr) (st := st) (st' := st')
    as (seen & rest & -> & HI & Hend); try done.
  - intros pre s name H Hf. apply Forall_app in Hf as [Hf _]. by apply Hlabel, H.
  - intros pre s x Hx H Hf. apply Forall_app in Hf as [Hf _]. by apply Hjmp, H.
  - intros pre s x Hx H Hf. apply Forall_app in Hf as [_ Hf].
    rewrite Forall_singleton in Hf. cbn [isStop] in Hf. congruence.
  - intros pre s x c Hx Hc H Hf. apply Forall_app in Hf as [Hf _]. by apply Hbr, H.
  - intros pre s val a Ha H Hf. by apply Hcheck, H.
  - intros pre s H Hf. by apply Hbail, H.
  - intros pre s x Hx Hq H Hf. apply Forall_app in Hf as [Hf _]. by apply Hskip, H.
  - intros pre s x Hx Hq H Hf. apply Forall_app in Hf as [Hf _]. by apply Hqueue, H.
  - intros pre s x Hx H Hf. apply Forall_app in Hf as [Hf _]. by apply Hkeep, H.
  - cbn [app] in HI. apply Forall_app in Hns as [Hseen Hrest].
    destruct Hend as [-> | (s & x & -> & Hx)].
    + rewrite app_nil_r. by apply HI.
    + apply Forall_app in Hseen as [_ Hlast]. rewrite Forall_singleton in Hlast.
      congruence.
Qed.

(** The principle for a whole run of the loop: what every step keeps holds
    at a normal end, of the reached part of the trace. *)
Lemma lowered_invariant constMap (I : list Instr → Lowering → Prop) :
  (∀ pre st name, I pre st → I (pre ++ [Label name]) st) →
  (∀ pre st x, op x = "jmp" → I pre st → I (pre ++ [Op x]) st) →
  (∀ pre st x c, op x = "br" → condVarOf x = Some c → I pre st →
                 I (pre ++ [Op x]) (pushGuarded st [Op (guardOn c)])) →
  (∀ pre st val a, constMap !! a = Some val → I pre st → I pre (checkArg val a st)) →
  (∀ pre st, I pre st → I pre (forceBail st)) →
  (∀ pre st x, op x = "print" → isQueued constMap (Op x) = false →
               I pre st → I (pre ++ [Op x]) st) →
  (∀ pre st x, op x = "print" → isQueued constMap (Op x) = true →
               I pre st → I (pre ++ [Op x]) (queuePrint st x)) →
  (∀ pre st x, isKept (Op x) = true → I pre st →
               I (pre ++ [Op x]) (pushGuarded st [Op x])) →
  ∀ trace st st',
    I [] st →
    lowerLoop constMap trace st = Done st' →
    I (reached trace) st'.
Proof.
  intros Hlabel Hjmp Hbr Hcheck Hbail Hskip Hqueue Hkeep trace st st' Hst Hrun.
  destruct (lowerLoop_reached _ _ _ _ Hrun) as (st1 & H1 & Hcase).
  assert (HI : I (reached trace) st1).
  { by apply (lowerLoop_reached_invariant constMap I)
      with (st := st); try apply reached_no_stop. }
  destruct Hcase as [[_ ->] | [_ ->]]; [done | by apply Hbail].
Qed.

Lemma isKept_spec ins :
  isKept ins = true
  ↔ ∃ o, ins = Op o ∧ op o ≠ "jmp" ∧ op o ≠ "call" ∧ op o ≠ "ret"
         ∧ op o ≠ "br" ∧ op o ≠ "print".
Proof.
  destruct ins as [l | o]; cbn [isKept].
  - split; [done | by intros (o & ? & _)].
  - unfold isCallRet.
    rewrite negb_true_iff, !orb_false_iff, !String.eqb_neq. split.
    + intros [[[Hj [Hc Hr]] Hb] Hp]. by exists o.
    + by intros (o' & [= <-] & Hj & Hc & Hr & Hb & Hp).
Qed.

Lemma isQueued_print constMap ins : isQueued constMap ins = true → isPrint ins = true.
Proof.
  destruct ins as [l | o]; cbn [isQueued isPrint]; [done|].
  by intros [H _]%andb_true_iff.
Qed.

Lemma isKept_not_queued constMap ins : isKept ins = true → isQueued constMap ins = false.
Proof.
  intros (o & -> & _ & _ & _ & _ & Hp)%isKept_spec. cbn [isQueued].
  apply String.eqb_neq in Hp. by rewrite Hp.
Qed.

Lemma filter_snoc_false {A} (p : A → bool) l x :
  p x = false → List.filter p (l ++ [x]) = List.filter p l.
Proof. intros H. rewrite List.filter_app. cbn. by rewrite H, app_nil_r. Qed.

Lemma filter_snoc_true {A} (p : A → bool) l x :
  p x = true → List.filter p (l ++ [x]) = List.filter p l ++ [x].
Proof. intros H. rewrite List.filter_app. cbn. by rewrite H. Qed.

(** X3. When the loop of [main] ends normally, the queue of deferred prints
    is exactly the list of the print instructions that stand before the
    first call or ret of the trace and whose arguments all have an entry in
    the constant map, in trace order and with repetitions. *)
Theorem X3_queue_is_recorded_prints constMap (trace : list Instr) (low : Lowering) :
  lowerLoop constMap trace initLowering = Done low →
  postCommitPrints low = List.filter (isQueued constMap) (reached trace).
Proof.
  apply (lowered_invariant constMap
           (λ pre s, postCommitPrints s = List.filter (isQueued constMap) pre));
    try done.
  - intros pre s name H. by rewrite filter_snoc_false.
  - intros pre s x Hx H. rewrite filter_snoc_false; [done|].
    cbn [isQueued]. by rewrite Hx.
  - intros pre s x c Hx _ H. rewrite filter_snoc_false; [done|].
    cbn [isQueued]. by rewrite Hx.
  - intros pre s x _ Hq H. by rewrite filter_snoc_false.
  - intros pre s x _ Hq H. rewrite filter_snoc_true by done.
    cbn [queuePrint postCommitPrints]. by rewrite H.
  - intros pre s x Hk H. rewrite filter_snoc_false; [done|].
    by apply isKept_not_queued.
Qed.

Lemma X3_queue_is_recorded_prints_witness :
  [printI ["x"]]
  = List.filter (isQueued (buildConstMap [constI "x" 1]))
      (reached [printI ["x"]; printI ["y"]; callI "f"; printI ["x"]]).
Proof.
  apply (X3_queue_is_recorded_prints (buildConstMap [constI "x" 1])
           [printI ["x"]; printI ["y"]; callI "f"; printI ["x"]]
           {| guarded := argCheck (Some (VNum 1)) "x" 0 ++ bailPair 2 ++ bailPair 3;
              postCommitPrints := [printI ["x"]];
              synthCounter := 4 |}).
  reflexivity.
Defined.

Lemma reached_elem trace x : x ∈ reached trace → x ∈ trace.
Proof.
  induction trace as [|y trace IH]; cbn [reached]; [done|].
  destruct (isStop y); [by intros ?%elem_of_nil|].
  rewrite !elem_of_cons. intros [-> | H]; [by left | right; by apply IH].
Qed.

(** X4. When the loop of [main] ends normally, every entry of the guarded
    sequence is an operation whose opcode is none of jmp, call, ret, br and
    print, and it is either an operation of the trace or an operation the
    loop built (a const, eq, ceq or guard).  In particular no print is
    executed inside the speculative region. *)
Theorem X4_guarded_holds_no_control_or_print constMap (trace : list Instr)
    (low : Lowering) :
  lowerLoop constMap trace initLowering = Done low →
  ∀ x, x ∈ guarded low →
    ∃ o, x = Op o
         ∧ op o ≠ "jmp" ∧ op o ≠ "call" ∧ op o ≠ "ret" ∧ op o ≠ "br"
         ∧ op o ≠ "print"
         ∧ (x ∈ trace
            ∨ op o = "const" ∨ op o = "eq" ∨ op o = "ceq" ∨ op o = "guard").
Proof.
  intros Hrun.
  assert (HI : Forall (λ x, isKept x = true
                            ∧ (x ∈ reached trace ∨ isSynth x = true))
                 (guarded low)).
  { revert Hrun.
    apply (lowered_invariant constMap
             (λ pre s, Forall (λ x, isKept x = true
                                    ∧ (x ∈ pre ∨ isSynth x = true)) (guarded s)));
      try (by constructor).
    - intros pre s name H. eapply Forall_impl; [exact H|].
      intros x [Hk [Hx | Hx]]; (split; [done|]); [left | by right].
      apply elem_of_app. by left.
    - intros pre s x _ H. eapply Forall_impl; [exact H|].
      intros y [Hk [Hy | Hy]]; (split; [done|]); [left | by right].
      apply elem_of_app. by left.
    - intros pre s x c _ _ H. cbn [pushGuarded guarded].
      apply Forall_app. split; [|by repeat constructor; right].
      eapply Forall_impl; [exact H|].
      intros y [Hk [Hy | Hy]]; (split; [done|]); [left | by right].
      apply elem_of_app. by left.
    - intros pre s val a _ H. rewrite checkArg_guarded.
      apply Forall_app. split; [done|].
      destruct val as [[n | b | v]|]; by repeat constructor; right.
    - intros pre s H. rewrite forceBail_guarded.
      apply Forall_app. split; [done | by repeat constructor; right].
    - intros pre s x _ _ H. eapply Forall_impl; [exact H|].
      intros y [Hk [Hy | Hy]]; (split; [done|]); [left | by right].
      apply elem_of_app. by left.
    - intros pre s x _ _ H. cbn [queuePrint guarded]. eapply Forall_impl; [exact H|].
      intros y [Hk [Hy | Hy]]; (split; [done|]); [left | by right].
      apply elem_of_app. by left.
    - intros pre s x Hk H. cbn [pushGuarded guarded].
      apply Forall_app. split.
      + eapply Forall_impl; [exact H|].
        intros y [Hk' [Hy | Hy]]; (split; [done|]); [left | by right].
        apply elem_of_app. by left.
      + constructor; [|constructor]. split; [done | left].
        apply elem_of_app. right. apply list_elem_of_here. }
  intros x Hx. rewrite Forall_forall in HI.
  destruct (HI x Hx) as [Hk Hor].
  apply isKept_spec in Hk as (o & -> & Hj & Hc & Hr & Hb & Hp).
  exists o. repeat (split; [done|]).
  destruct Hor as [Hin | Hs]; [left; by apply reached_elem|right].
  cbn [isSynth] in Hs. apply andb_true_iff in Hs as [Hs _].
  rewrite !orb_true_iff, !String.eqb_eq in Hs. tauto.
Qed.

Lemma X4_guarded_holds_no_control_or_print_witness :
  ∃ o, constI "x" 1 = Op o
       ∧ op o ≠ "jmp" ∧ op o ≠ "call" ∧ op o ≠ "ret" ∧ op o ≠ "br"
       ∧ op o ≠ "print"
       ∧ (constI "x" 1 ∈ printAfterCall
          ∨ op o = "const" ∨ op o = "eq" ∨ op o = "ceq" ∨ op o = "guard").
Proof.
  apply (X4_guarded_holds_no_control_or_print (buildConstMap printAfterCall)
           printAfterCall
           {| guarded := [constI "x" 1] ++ bailPair 0;
              postCommitPrints := []; synthCounter := 1 |} eq_refl).
  apply list_elem_of_here.
Defined.

(** X5. When the loop of [main] ends normally, the operations of the trace
    before the first call or ret whose opcode is none of jmp, br and print
    all occur in the guarded sequence, unchanged and in trace order. *)
Theorem X5_copied_instructions_survive constMap (trace : list Instr)
    (low : Lowering) :
  lowerLoop constMap trace initLowering = Done low →
  List.filter isKept (reached trace) `sublist_of` guarded low.
Proof.
  apply (lowered_invariant constMap
           (λ pre s, List.filter isKept pre `sublist_of` guarded s));
    try done.
  - intros pre s name H. by rewrite filter_snoc_false.
  - intros pre s x Hx H. rewrite filter_snoc_false; [done|].
    cbn [isKept]. by rewrite Hx.
  - intros pre s x c Hx _ H. rewrite filter_snoc_false.
    + by apply sublist_inserts_r.
    + cbn [isKept]. by rewrite Hx.
  - intros pre s val a _ H. rewrite checkArg_guarded. by apply sublist_inserts_r.
  - intros pre s H. rewrite forceBail_guarded. by apply sublist_inserts_r.
  - intros pre s x Hx _ H. rewrite filter_snoc_false; [done|].
    cbn [isKept]. by rewrite Hx.
  - intros pre s x Hx _ H. rewrite filter_snoc_false; [done|].
    cbn [isKept]. by rewrite Hx.
  - intros pre s x Hk H. rewrite filter_snoc_true by done.
    cbn [pushGuarded guarded]. by apply sublist_app.
Qed.

Lemma X5_copied_instructions_survive_witness :
  List.filter isKept (reached printAfterCall)
  `sublist_of` [constI "x" 1] ++ bailPair 0.
Proof.
  exact (X5_copied_instructions_survive (buildConstMap printAfterCall)
           printAfterCall
           {| guarded := [constI "x" 1] ++ bailPair 0;
              postCommitPrints := []; synthCounter := 1 |} eq_refl).
Defined.

(** ** The names the loop synthesises *)

Lemma synthName_inj fam fam' k k' :
  fam ∈ ["_spec_false_"; "_spec_exp_"; "_spec_cmp_"] →
  fam' ∈ ["_spec_false_"; "_spec_exp_"; "_spec_cmp_"] →
  fam +:+ showNat k = fam' +:+ showNat k' → k = k'.
Proof.
  rewrite !elem_of_cons, !elem_of_nil.
  intros [-> | [-> | [-> | []]]] [-> | [-> | [-> | []]]];
    cbn [String.append]; intros H; try discriminate H;
    injection H as H; by apply showNat_inj.
Qed.

Lemma counted_app n l m l' k :
  counted n l m → counted m l' k → counted n (l ++ l') k.
Proof.
  induction 1 as [n | fam n l m Hf _ IH]; intros H'; [done|].
  cbn [app]. constructor; [done | by apply IH].
Qed.

Lemma counted_bounds n l m :
  counted n l m →
  (n ≤ m)%nat ∧ length l = (m - n)%nat
  ∧ ∀ x, x ∈ l → ∃ fam k, fam ∈ ["_spec_false_"; "_spec_exp_"; "_spec_cmp_"]
                          ∧ x = fam +:+ showNat k ∧ (n ≤ k < m)%nat.
Proof.
  induction 1 as [n | fam n l m Hf _ (Hle & Hlen & Hin)].
  - split; [lia|]. split; [cbn; lia|]. by intros x ?%elem_of_nil.
  - split; [lia|]. split; [cbn; lia|].
    intros x [-> | Hx]%elem_of_cons.
    + exists fam, n. split; [done|]. split; [done | lia].
    + destruct (Hin x Hx) as (f & k & Hfam & -> & Hk).
      exists f, k. split; [done|]. split; [done | lia].
Qed.

Lemma counted_NoDup n l m : counted n l m → NoDup l.
Proof.
  induction 1 as [n | fam n l m Hf Hc IH]; constructor; [|done].
  intros Hin. destruct (counted_bounds _ _ _ Hc) as (_ & _ & Hb).
  destruct (Hb _ Hin) as (f & k & Hfam & Heq & Hk).
  apply synthName_inj in Heq; [lia | done..].
Qed.

Lemma synthDests_app g1 g2 : synthDests (g1 ++ g2) = synthDests g1 ++ synthDests g2.
Proof. apply omap_app. Qed.

Lemma synthDests_bailPair n : synthDests (bailPair n) = ["_spec_false_" +:+ showNat n].
Proof. reflexivity. Qed.

Lemma synthDests_argCheck val a n :
  synthDests (argCheck val a n)
  = ["_spec_exp_" +:+ showNat n; "_spec_cmp_" +:+ showNat (S n)].
Proof. reflexivity. Qed.

(** X6. When no operation of the trace has a destination in the name space
    [_spec_...] and the loop of [main] ends normally, the destinations in
    that name space in the guarded sequence are pairwise distinct, and there
    are as many of them as the final value of the counter: one name per
    counter value. *)
Theorem X6_synthesised_names_distinct constMap (trace : list Instr)
    (low : Lowering) :
  (∀ o, Op o ∈ trace → synthDests [Op o] = []) →
  lowerLoop constMap trace initLowering = Done low →
  NoDup (synthDests (guarded low))
  ∧ length (synthDests (guarded low)) = synthCounter low.
Proof.
  intros Hclean Hrun.
  assert (HI : Forall (λ x, synthDests [x] = []) (reached trace) →
               counted 0 (synthDests (guarded low)) (synthCounter low)).
  { revert Hrun.
    apply (lowered_invariant constMap
             (λ pre s, Forall (λ x, synthDests [x] = []) pre →
                       counted 0 (synthDests (guarded s)) (synthCounter s))).
    - intros pre s name H [Hf _]%Forall_app. by apply H.
    - intros pre s x _ H [Hf _]%Forall_app. by apply H.
    - intros pre s x c _ _ H [Hf _]%Forall_app. cbn [pushGuarded guarded synthCounter].
      rewrite synthDests_app. cbn. rewrite app_nil_r. by apply H.
    - intros pre s val a _ H Hf. rewrite checkArg_guarded, synthDests_app.
      apply counted_app with (m := synthCounter s); [by apply H|].
      rewrite synthDests_argCheck. cbn [checkArg synthCounter].
      constructor; [set_solver|]. constructor; [set_solver|]. constructor.
    - intros pre s H Hf. rewrite forceBail_guarded, synthDests_app.
      apply counted_app with (m := synthCounter s); [by apply H|].
      rewrite synthDests_bailPair. cbn [forceBail synthCounter].
      constructor; [set_solver | constructor].
    - intros pre s x _ _ H [Hf _]%Forall_app. by apply H.
    - intros pre s x _ _ H [Hf _]%Forall_app. by apply H.
    - intros pre s x _ H [Hf Hx]%Forall_app. rewrite Forall_singleton in Hx.
      cbn [pushGuarded guarded synthCounter].
      rewrite synthDests_app, Hx, app_nil_r. by apply H.
    - intros _. constructor. }
  assert (Hc : counted 0 (synthDests (guarded low)) (synthCounter low)).
  { apply HI. apply Forall_forall. intros x Hx%reached_elem.
    destruct x as [l | o]; [done | by apply Hclean]. }
  split; [by eapply counted_NoDup|].
  destruct (counted_bounds _ _ _ Hc) as (_ & -> & _). lia.
Qed.

Lemma X6_synthesised_names_distinct_witness :
  NoDup (synthDests (argCheck (Some (VNum 1)) "x" 0 ++ bailPair 2 ++ bailPair 3))
  ∧ length (synthDests (argCheck (Some (VNum 1)) "x" 0 ++ bailPair 2 ++ bailPair 3))
    = 4.
Proof.
  apply (X6_synthesised_names_distinct (buildConstMap [constI "x" 1])
           [printI ["x"]; printI ["y"]; callI "f"; printI ["x"]]
           {| guarded := argCheck (Some (VNum 1)) "x" 0 ++ bailPair 2 ++ bailPair 3;
              postCommitPrints := [printI ["x"]];
              synthCounter := 4 |}).
  - intros o Ho. repeat (apply elem_of_cons in Ho as [Ho | Ho];
                         [injection Ho as ->; reflexivity|]).
    by apply elem_of_nil in Ho.
  - reflexivity.
Defined.

(** ** The outcomes of a run *)

Lemma findIndex_None p fs : findIndex p fs = None ↔ ∀ f, f ∈ fs → p f = false.
Proof.
  induction fs as [|f fs IH]; cbn [findIndex].
  - split; [by intros _ f ?%elem_of_nil | done].
  - destruct (p f) eqn:Hp.
    + split; [done|]. intros H. rewrite (H f) in Hp; [done | apply list_elem_of_here].
    + destruct (findIndex p fs) as [k|].
      * split; [done|]. intros H. exfalso.
        assert (Hn : Some k = None); [|done]. apply IH.
        intros g Hg. apply H. by apply elem_of_cons; right.
      * split; [|done]. intros _ g [-> | Hg]%elem_of_cons; [done|].
        by apply IH.
Qed.

Lemma isMain_spec f : isMain f = true ↔ fn_name f = "main".
Proof. apply String.eqb_eq. Qed.

(** The validation of the program with the new [main] put in place. *)
Lemma validate_insert fs mainIdx origMain body :
  fs !! mainIdx = Some origMain →
  validateBrilProgram {| functions := <[mainIdx := withInstrs origMain body]> fs |}
  = true
  ↔ ∀ j f, j ≠ mainIdx → fs !! j = Some f → is_Some (fn_instrs f).
Proof.
  intros Ho. unfold validateBrilProgram. cbn [functions].
  rewrite forallb_forall. split.
  - intros H j f Hj Hf.
    assert (Hin : In f (<[mainIdx := withInstrs origMain body]> fs)).
    { apply list_elem_of_In, list_elem_of_lookup. exists j.
      by rewrite list_lookup_insert_ne. }
    apply H in Hin. by destruct (fn_instrs f).
  - intros H f [j Hj]%list_elem_of_In%list_elem_of_lookup.
    apply list_lookup_insert_Some in Hj as [(-> & <- & _) | (Hne & Hj)]; [done|].
    by destruct (H j f (not_eq_sym Hne) Hj) as [b ->].
Qed.

(** A br without a condition that stands before the first call or ret ends
    the loop on the exception. *)
Lemma lowerLoop_reached_badbr constMap trace st x :
  x ∈ reached trace → isBadBr x = true →
  lowerLoop constMap trace st = Throw "br in trace without condition arg".
Proof.
  intros Hx Hb. pose proof (reached_no_stop trace) as Hns.
  destruct (trace_cases (reached trace))
    as [[_ H] | [(pre & ins & post & Heq & H & Hi)
                | (pre & ins & post & Heq & H & Hi)]].
  - rewrite Forall_forall in H. rewrite (H x Hx) in Hb. done.
  - rewrite Heq in Hns. apply Forall_app in Hns as [_ Hns].
    apply Forall_cons in Hns as [Hns _]. congruence.
  - destruct (reached_split trace) as [Hr | (y & post' & Ht & Hy)].
    + rewrite <- Hr, Heq. by apply lowerLoop_badbr.
    + rewrite Ht, Heq, <- app_assoc. cbn [app]. by apply lowerLoop_badbr.
Qed.

(** A loop that ends normally met no br without a condition before the
    first call or ret. *)
Lemma lowerLoop_Done_no_badbr constMap trace st st' :
  lowerLoop constMap trace st = Done st' →
  Forall (λ x, isBadBr x = false) (reached trace).
Proof.
  intros Hrun. apply Forall_forall. intros x Hx.
  destruct (isBadBr x) eqn:Hb; [|done].
  by rewrite (lowerLoop_reached_badbr constMap trace st x Hx Hb) in Hrun.
Qed.

(** The ways in which [main], once it has the parsed trace, leaves through
    [Deno.exit]. *)
Lemma main_Exit_iff StringToNumber (rawTrace : list Instr) (prog : Program)
    (code : nat) :
  main StringToNumber rawTrace prog = Exit code
  ↔ (rawTrace = [] ∧ code = 2)
    ∨ (rawTrace ≠ []
       ∧ (∃ low, lowerLoop (buildConstMap (optimizeTrace StringToNumber rawTrace))
                   (optimizeTrace StringToNumber rawTrace) initLowering = Done low)
       ∧ (∀ f, f ∈ functions prog → fn_name f ≠ "main")
       ∧ code = 1).
Proof.
  unfold main. fold isMain. split.
  - destruct rawTrace as [|x tr]; [intros [= <-]; by left|].
    destruct (lowerLoop _ _ _) as [low | | c] eqn:Hl; [|done|].
    + destruct (findIndex isMain (functions prog)) as [mainIdx|] eqn:Hf.
      * destruct (functions prog !! mainIdx) as [origMain|]; [|done].
        destruct (fn_instrs origMain); [|done].
        by destruct (validateBrilProgram _).
      * intros [= <-]. right. split; [done|]. split; [by exists low|].
        split; [|done]. intros f Hin Hname.
        rewrite findIndex_None in Hf. apply Hf in Hin.
        apply isMain_spec in Hname. congruence.
    + by destruct (lowerLoop_no_exit _ _ _ _ Hl).
  - intros [[-> ->] | (Hne & (low & Hl) & Hno & ->)]; [done|].
    destruct rawTrace as [|x tr]; [done|]. rewrite Hl.
    assert (findIndex isMain (functions prog) = None) as ->; [|done].
    apply findIndex_None. intros f Hin.
    destruct (isMain f) eqn:Hm; [|done].
    apply isMain_spec in Hm. by destruct (Hno f Hin).
Qed.

(** X7. A run ends with a program only when the trace has at least one
    line, no br without a condition stands before the first call or ret of
    the reduced trace, the lowering ends normally, the program has a
    function named [main], and every function of the input, [main]
    included, has an instruction list; the program is then the input with
    the first [main] given the assembled body. *)
Theorem X7_run_succeeds_only_if StringToNumber (rawTrace : list Instr)
    (prog prog' : Program) :
  main StringToNumber rawTrace prog = Done prog' →
  rawTrace ≠ []
  ∧ Forall (λ x, isBadBr x = false) (reached (optimizeTrace StringToNumber rawTrace))
  ∧ (∀ f, f ∈ functions prog → is_Some (fn_instrs f))
  ∧ ∃ low mainIdx origMain fallbackBody,
      lowerLoop (buildConstMap (optimizeTrace StringToNumber rawTrace))
        (optimizeTrace StringToNumber rawTrace) initLowering = Done low
      ∧ findIndex isMain (functions prog) = Some mainIdx
      ∧ functions prog !! mainIdx = Some origMain
      ∧ fn_name origMain = "main"
      ∧ fn_instrs origMain = Some fallbackBody
      ∧ prog'
        = {| functions :=
               <[mainIdx := withInstrs origMain
                              (newInstrs (guarded low) (postCommitPrints low)
                                 fallbackBody)]>
                 (functions prog) |}.
Proof.
  unfold main. fold isMain.
  destruct rawTrace as [|x tr]; [done|].
  destruct (lowerLoop _ _ _) as [low | |] eqn:Hl; [|done..].
  destruct (findIndex isMain (functions prog)) as [mainIdx|] eqn:Hf; [|done].
  destruct (functions prog !! mainIdx) as [origMain|] eqn:Ho; [|done].
  destruct (fn_instrs origMain) as [body|] eqn:Hb; [|done].
  destruct (validateBrilProgram _) eqn:Hv; [|done].
  intros [= <-]. split; [done|].
  split; [by eapply lowerLoop_Done_no_badbr|]. split.
  - intros f [j Hj]%list_elem_of_lookup.
    destruct (decide (j = mainIdx)) as [-> | Hne].
    + rewrite Ho in Hj. injection Hj as <-. by rewrite Hb.
    + by apply (proj1 (validate_insert _ _ _ _ Ho) Hv j f).
  - exists low, mainIdx, origMain, body.
    destruct (findIndex_Some _ _ _ Hf) as (f & Hf1 & Hname & _).
    rewrite Ho in Hf1. injection Hf1 as <-. apply isMain_spec in Hname.
    by repeat split.
Qed.

Lemma X7_run_succeeds_only_if_witness :
  scenario ≠ []
  ∧ Forall (λ x, isBadBr x = false) (reached (optimizeTrace noNumber scenario))
  ∧ (∀ f, f ∈ functions sampleProgram → is_Some (fn_instrs f))
  ∧ ∃ low mainIdx origMain fallbackBody,
      lowerLoop (buildConstMap (optimizeTrace noNumber scenario))
        (optimizeTrace noNumber scenario) initLowering = Done low
      ∧ findIndex isMain (functions sampleProgram) = Some mainIdx
      ∧ functions sampleProgram !! mainIdx = Some origMain
      ∧ fn_name origMain = "main"
      ∧ fn_instrs origMain = Some fallbackBody
      ∧ sampleOutput
        = {| functions :=
               <[mainIdx := withInstrs origMain
                              (newInstrs (guarded low) (postCommitPrints low)
                                 fallbackBody)]>
                 (functions sampleProgram) |}.
Proof.
  exact (X7_run_succeeds_only_if noNumber scenario sampleProgram sampleOutput
           (sample_run noNumber)).
Defined.

(** X8. The script leaves through [Deno.exit] in four cases only: with
    code 1 when no trace path is given; with code 2 when the trace file has
    no non-empty line; with code 2 when some line is not JSON; and with code
    1 when every line parses, the lowering ends normally and no function of
    the program is named [main]. *)
Theorem X8_run_exit_codes StringToNumber (parseLine : string → option Instr)
    (tracePath : option string) (lines : list string) (prog : Program)
    (code : nat) :
  mainWithArgs StringToNumber parseLine tracePath lines prog = Exit code
  ↔ (truthy tracePath = None ∧ code = 1)
    ∨ (is_Some (truthy tracePath) ∧ lines = [] ∧ code = 2)
    ∨ (is_Some (truthy tracePath) ∧ lines ≠ []
       ∧ (∃ l, l ∈ lines ∧ parseLine l = None) ∧ code = 2)
    ∨ (is_Some (truthy tracePath) ∧ lines ≠ []
       ∧ (∃ rawTrace low,
            Forall2 (λ l i, parseLine l = Some i) lines rawTrace
            ∧ lowerLoop (buildConstMap (optimizeTrace StringToNumber rawTrace))
                (optimizeTrace StringToNumber rawTrace) initLowering = Done low)
       ∧ (∀ f, f ∈ functions prog → fn_name f ≠ "main")
       ∧ code = 1).
Proof.
  unfold mainWithArgs. destruct (truthy tracePath) as [path|] eqn:Hpath.
  2:{ split.
      - intros [= <-]. by left.
      - intros [[_ ->] | [([? [=]] & _) | [([? [=]] & _) | ([? [=]] & _)]]]. done. }
  destruct lines as [|l0 ls].
  { split.
    - intros [= <-]. right; left. by split; [eexists|].
    - intros [[[=] _] | [(_ & _ & ->) | [(_ & Hne & _) | (_ & Hne & _)]]]; done. }
  destruct (mapM parseLine (l0 :: ls)) as [rawTrace|] eqn:Hparse.
  - apply mapM_Some in Hparse. rewrite main_Exit_iff. split.
    + intros [[-> _] | (Hne & (low & Hl) & Hno & ->)].
      { by apply Forall2_nil_inv_r in Hparse. }
      right; right; right. split; [by eexists|]. split; [done|].
      split; [by exists rawTrace, low | done].
    + intros [[[=] _] | [(_ & [=] & _) | [(_ & _ & (l & Hin & Hl) & _)
                        | (_ & _ & (tr & low & Htr & Hl) & Hno & ->)]]].
      * exfalso. apply list_elem_of_lookup in Hin as [k Hk].
        destruct (Forall2_lookup_l _ _ _ k l Hparse Hk) as (y & _ & Hy).
        congruence.
      * right. assert (tr = rawTrace) as ->.
        { clear -Htr Hparse. revert tr Htr.
          induction Hparse as [|a b la lb Hab _ IH]; intros tr Htr.
          - by apply Forall2_nil_inv_l in Htr.
          - apply Forall2_cons_inv_l in Htr as (b' & tr' & Hb' & Htr' & ->).
            f_equal; [congruence | by apply IH]. }
        split; [|by split; [exists low|]].
        intros ->. by apply Forall2_nil_inv_r in Hparse.
  - apply mapM_None in Hparse. split.
    + intros [= <-]. right; right; left. split; [by eexists|]. split; [done|].
      apply Exists_exists in Hparse as (l & Hin & Hl). split; [by exists l | done].
    + intros [[[=] _] | [(_ & [=] & _) | [(_ & _ & _ & ->)
                        | (_ & _ & (tr & low & Htr & _) & _)]]]; [done|].
      exfalso. apply Exists_exists in Hparse as (l & Hin & Hl).
      apply list_elem_of_lookup in Hin as [k Hk].
      destruct (Forall2_lookup_l _ _ _ k l Htr Hk) as (y & _ & Hy). congruence.
Qed.

(** X9. A run on a trace with at least one line dies on an exception
    whenever a br without a condition stands before the first call or ret of
    the reduced trace, with the message of the lowering loop and whatever
    the program is, a program without [main] included; and whenever the
    lowering ends normally, some function is named [main] and some function
    has no instruction list. *)
Theorem X9_run_raises_when StringToNumber (rawTrace : list Instr) (prog : Program) :
  rawTrace ≠ [] →
  (∃ x, x ∈ reached (optimizeTrace StringToNumber rawTrace) ∧ isBadBr x = true)
  ∨ ((∃ low, lowerLoop (buildConstMap (optimizeTrace StringToNumber rawTrace))
               (optimizeTrace StringToNumber rawTrace) initLowering = Done low)
     ∧ (∃ f, f ∈ functions prog ∧ fn_name f = "main")
     ∧ (∃ f, f ∈ functions prog ∧ fn_instrs f = None)) →
  ∃ msg,
    main StringToNumber rawTrace prog = Throw msg
    ∧ ((∃ x, x ∈ reached (optimizeTrace StringToNumber rawTrace) ∧ isBadBr x = true)
       → msg = "br in trace without condition arg").
Proof.
  intros Hne Hcase. unfold main. fold isMain.
  destruct rawTrace as [|x0 tr]; [done|].
  destruct Hcase as [(x & Hx & Hb)
                    | ((low & Hl) & (m & Hm & Hname) & (f & Hin & Hnone))].
  { rewrite (lowerLoop_reached_badbr _ _ initLowering x Hx Hb). by eexists. }
  rewrite Hl.
  assert (Hno : (∃ x, x ∈ reached (optimizeTrace StringToNumber (x0 :: tr))
                      ∧ isBadBr x = true) → False).
  { intros (x & Hx & Hb).
    by rewrite (lowerLoop_reached_badbr _ _ initLowering x Hx Hb) in Hl. }
  destruct (findIndex isMain (functions prog)) as [mainIdx|] eqn:Hf.
  - destruct (findIndex_Some _ _ _ Hf) as (origMain & Ho & _). rewrite Ho.
    destruct (fn_instrs origMain) as [body|] eqn:Hb;
      [|eexists; split; [done | by intros ?%Hno]].
    destruct (validateBrilProgram _) eqn:Hv;
      [|eexists; split; [done | by intros ?%Hno]].
    apply list_elem_of_lookup in Hin as [j Hj].
    destruct (decide (j = mainIdx)) as [-> | Hj'].
    + rewrite Ho in Hj. injection Hj as <-. congruence.
    + destruct (proj1 (validate_insert _ _ _ _ Ho) Hv j f Hj' Hj) as [b Hb'].
      congruence.
  - rewrite findIndex_None in Hf. apply Hf in Hm.
    apply isMain_spec in Hname. congruence.
Qed.

Lemma X9_run_raises_when_witness :
  ∃ msg,
    main noNumber [brI []] {| functions := [] |} = Throw msg
    ∧ ((∃ x, x ∈ reached (optimizeTrace noNumber [brI []]) ∧ isBadBr x = true)
       → msg = "br in trace without condition arg").
Proof.
  apply (X9_run_raises_when noNumber [brI []] {| functions := [] |}); [done|].
  left. exists (brI []). split; [|reflexivity].
  assert (reached (optimizeTrace noNumber [brI []]) = [brI []]) as ->
    by (vm_compute; reflexivity).
  apply list_elem_of_here.
Defined.

(** ** The reducer: further properties *)

Lemma List_filter_sublist {A} (p : A → bool) (l : list A) :
  List.filter p l `sublist_of` l.
Proof.
  induction l as [|x l IH]; cbn [List.filter]; [constructor|].
  destruct (p x); by constructor.
Qed.

Section ReducerShape.

Variable StringToNumber : string → float.

Local Abbreviation step := (foldStep StringToNumber).
Local Abbreviation pass := (foldPass StringToNumber).
Local Abbreviation reduce := (optimizeTrace StringToNumber).

Lemma foldStep_foldedAs env out i :
  ∃ y, (step (env, out) (Op i)).2 = out ++ [y] ∧ foldedAs (Op i) y.
Proof.
  unfold foldStep.
  repeat case_match; subst;
    try (exists (Op i); split; [reflexivity | by left]);
    try (by match goal with H : truthy None = Some _ |- _ => cbn in H end).
  lazymatch goal with
  | Ht : truthy (dest i) = Some _ |- _ =>
      apply truthy_Some in Ht as [Ht _];
      eexists; split; [reflexivity|]; right;
      eexists _, _; split; [reflexivity|]; split; [done|];
      unfold foldedConst; rewrite Ht; by destruct (type i)
  end.
Qed.

(** X10. The fold pass emits exactly one instruction per operation of the
    trace, in order: the operation itself, or, for an add, sub or mul, a
    const with the same destination (and the same type, [int] when it has
    none).  The reducer's result is a subsequence of that output, so the
    reducer never adds, reorders or renames an assignment. *)
Theorem X10_reducer_shape (instrs : list Instr) :
  Forall2 foldedAs (List.filter isOp instrs) (pass instrs).2
  ∧ reduce instrs `sublist_of` (pass instrs).2
  ∧ (length (reduce instrs) ≤ length (List.filter isOp instrs))%nat.
Proof.
  assert (H2 : Forall2 foldedAs (List.filter isOp instrs) (pass instrs).2).
  { induction instrs as [|x instrs IH] using rev_ind; [constructor|].
    rewrite foldPass_snoc, List.filter_app. destruct (pass instrs) as [env out].
    cbn [snd] in IH. destruct x as [l | i].
    - cbn. by rewrite app_nil_r.
    - destruct (foldStep_foldedAs env out i) as (y & -> & Hy).
      cbn [List.filter isOp]. apply Forall2_app; [done|].
      constructor; [done | constructor]. }
  split; [done|]. split; [apply List_filter_sublist|].
  rewrite (Forall2_length _ _ _ H2). apply sublist_length, List_filter_sublist.
Qed.

Lemma foldStep_env_other env out ins a :
  rebinds a ins = false → (step (env, out) ins).1 !! a = env !! a.
Proof.
  destruct ins as [l | i]; [done|]. cbn [rebinds]. unfold foldStep. intros Hr.
  destruct (String.eqb (op i) "const") eqn:Hc, (dest i) as [d|] eqn:Hd;
    cbn [orb andb] in Hr.
  - cbn [fst]. apply String.eqb_neq in Hr. by rewrite lookup_insert_ne.
  - by repeat case_match.
  - destruct (isArith (op i)) eqn:Ha; [|by repeat case_match].
    cbn [andb] in Hr. apply String.eqb_neq in Hr.
    destruct (args i) as [xs|]; [|done].
    destruct (truthy (Some d)) as [d'|] eqn:Ht; [|done].
    apply truthy_Some in Ht as [[= <-] _].
    destruct (envGet env (xs !! 0%nat)), (envGet env (xs !! 1%nat)); try done.
    cbn [fst]. by rewrite lookup_insert_ne.
  - by repeat case_match.
Qed.

(** X11. The binding of a name in the constant environment is changed only
    by a const or an add, sub or mul whose destination is that name.
    Across any other instructions it stays as it is, also across an
    instruction of another opcode that assigns the same name. *)
Theorem X11_binding_persists (mid : list Instr) (env : Env) (out : list Instr)
    (a : string) :
  Forall (λ x, rebinds a x = false) mid →
  (fold_left step mid (env, out)).1 !! a = env !! a.
Proof.
  intros H. revert env out. induction H as [|x mid Hx _ IH]; intros env out; [done|].
  cbn [fold_left]. destruct (step (env, out) x) as [env' out'] eqn:E.
  rewrite IH. change env' with (env', out').1. rewrite <- E.
  by apply foldStep_env_other.
Qed.

(** X12. In a trace without const instructions nothing is folded: the fold
    pass returns the operations of the trace as they are and an empty
    environment. *)
Theorem X12_no_const_no_fold (instrs : list Instr) :
  (∀ o, Op o ∈ instrs → op o ≠ "const") →
  pass instrs = (∅, List.filter isOp instrs).
Proof.
  intros Hno. unfold foldPass.
  enough (H : ∀ out, fold_left step instrs (∅, out)
                     = (∅, out ++ List.filter isOp instrs)) by apply (H []).
  induction instrs as [|x instrs IH]; intros out;
    cbn [fold_left List.filter isOp]; [by rewrite app_nil_r|].
  assert (Hrest : ∀ o, Op o ∈ instrs → op o ≠ "const").
  { intros o Ho. apply Hno. by apply elem_of_cons; right. }
  destruct x as [l | i]; [by apply IH|].
  assert (Hc : String.eqb (op i) "const" = false).
  { apply String.eqb_neq, Hno, list_elem_of_here. }
  assert (Hs : step (∅, out) (Op i) = (∅, out ++ [Op i])).
  { unfold foldStep. rewrite Hc. cbn.
    destruct (isArith (op i)); [|done]. destruct (args i) as [xs|]; [|done].
    destruct (truthy (dest i)); [|done].
    unfold envGet. destruct (xs !! 0%nat) as [k|]; [|done].
    by rewrite lookup_empty. }
  rewrite Hs, IH by done. by rewrite <- app_assoc.
Qed.

End ReducerShape.

Lemma X11_binding_persists_witness :
  (fold_left (foldStep noNumber) [idI "a" "x"; printI ["a"]]
     (<["a" := Some (VNum 1)]> ∅, [])).1 !! "a"
  = (<["a" := Some (VNum 1)]> ∅ : Env) !! "a".
Proof.
  apply (X11_binding_persists noNumber [idI "a" "x"; printI ["a"]]).
  repeat constructor.
Defined.

Lemma X12_no_const_no_fold_witness :
  foldPass noNumber [addI "c" "a" "b"; Label "l"; printI ["c"]]
  = (∅, [addI "c" "a" "b"; printI ["c"]]).
Proof.
  apply (X12_no_const_no_fold noNumber [addI "c" "a" "b"; Label "l"; printI ["c"]]).
  intros o Ho. rewrite !elem_of_cons, elem_of_nil in Ho.
  destruct Ho as [H | [H | [H | []]]]; try discriminate H; by injection H as ->.
Defined.

(** ** The constant map of [main] and the environment of the reducer *)

Lemma buildConstMap_snoc l x :
  buildConstMap (l ++ [x]) = constMapStep (buildConstMap l) x.
Proof. unfold buildConstMap. by rewrite fold_left_app. Qed.

Lemma constMapStep_not_const m i :
  String.eqb (op i) "const" = false → constMapStep m (Op i) = m.
Proof. intros H. cbn [constMapStep]. by rewrite H. Qed.

Lemma constMapStep_cases m x :
  (∃ d, isConstOf d x = true ∧ d ≠ ""
        ∧ ∃ i, x = Op i ∧ constMapStep m x = <[d := value i]> m)
  ∨ ((∀ d, isConstOf d x = false) ∧ constMapStep m x = m).
Proof.
  destruct x as [l | i]; [by right|]. cbn [constMapStep isConstOf].
  destruct (String.eqb (op i) "const"); [|by right].
  destruct (truthy (dest i)) as [d|] eqn:Hd; [|by right].
  left. exists d. rewrite String.eqb_refl.
  split; [done|]. split; [by apply truthy_Some in Hd as [_ ?]|]. by exists i.
Qed.

Lemma isConstOf_inj d d' x : isConstOf d x = true → isConstOf d' x = true → d = d'.
Proof.
  destruct x as [l | i]; [done|]. cbn [isConstOf].
  destruct (String.eqb (op i) "const"); [|done].
  destruct (truthy (dest i)) as [e|]; [|done]. cbn [andb].
  by intros <-%String.eqb_eq <-%String.eqb_eq.
Qed.

Lemma isConstOf_dceKeep used d x :
  isConstOf d x = true → dceKeep used x = bool_decide (d ∈ used).
Proof.
  destruct x as [l | i]; [done|]. cbn [isConstOf dceKeep].
  destruct (String.eqb (op i) "const") eqn:Hc; [|done].
  destruct (truthy (dest i)) as [e|]; [|done]. cbn [andb].
  intros <-%String.eqb_eq. apply String.eqb_eq in Hc.
  unfold isPure. rewrite Hc. cbn. by case_bool_decide.
Qed.

(** The map built from a sequence filtered by the dead-assignment test is
    the map built from the sequence, restricted to the used names. *)
Lemma buildConstMap_filter (used : gset string) (out : list Instr) (d : string) :
  buildConstMap (List.filter (dceKeep used) out) !! d
  = if bool_decide (d ∈ used) then buildConstMap out !! d else None.
Proof.
  induction out as [|x out IH] using rev_ind.
  - cbn. rewrite lookup_empty. by case_bool_decide.
  - rewrite List.filter_app, buildConstMap_snoc. cbn [List.filter].
    destruct (constMapStep_cases (buildConstMap out) x)
      as [(e & He & Hne & i & -> & ->) | [Hnone ->]].
    + pose proof (isConstOf_dceKeep used e _ He) as Hk.
      destruct (dceKeep used (Op i)); symmetry in Hk;
        [apply bool_decide_eq_true in Hk as Hu
        | apply bool_decide_eq_false in Hk as Hu].
      * rewrite buildConstMap_snoc.
        destruct (constMapStep_cases (buildConstMap (List.filter (dceKeep used) out))
                    (Op i)) as [(e' & He' & _ & i' & [= <-] & ->) | [Hn _]].
        -- rewrite (isConstOf_inj _ _ _ He' He).
           destruct (decide (e = d)) as [-> | Hed].
           ++ rewrite !lookup_insert_eq. by rewrite bool_decide_eq_true_2.
           ++ by rewrite !lookup_insert_ne.
        -- by rewrite Hn in He.
      * rewrite app_nil_r, IH.
        destruct (bool_decide (d ∈ used)) eqn:Hd; [|done].
        apply bool_decide_eq_true in Hd.
        rewrite lookup_insert_ne; [done|]. by intros ->.
    + destruct (dceKeep used x).
      * rewrite buildConstMap_snoc.
        destruct (constMapStep_cases (buildConstMap (List.filter (dceKeep used) out)) x)
          as [(e & He & _) | [_ ->]]; [by rewrite Hnone in He | done].
      * by rewrite app_nil_r.
Qed.

Section ConstMap.

Variable StringToNumber : string → float.

Local Abbreviation step := (foldStep StringToNumber).
Local Abbreviation pass := (foldPass StringToNumber).
Local Abbreviation reduce := (optimizeTrace StringToNumber).

(** The map built from the folded output is the final environment without
    the empty name. *)
Lemma buildConstMap_foldPass instrs :
  buildConstMap (pass instrs).2 = delete "" (pass instrs).1.
Proof.
  induction instrs as [|x instrs IH] using rev_ind.
  - cbn. by rewrite delete_empty.
  - rewrite foldPass_snoc. destruct (pass instrs) as [env out]. cbn [fst snd] in IH.
    destruct x as [l | i]; [done|].
    assert (Hkept : (String.eqb (op i) "const" = false ∨ dest i = None) →
                    buildConstMap (out ++ [Op i]) = delete "" env).
    { intros Hk. rewrite buildConstMap_snoc, IH. cbn [constMapStep].
      destruct Hk as [-> | ->]; [done|]. by destruct (String.eqb (op i) "const"). }
    unfold foldStep.
    repeat case_match; subst; cbn [fst snd]; try (apply Hkept; by auto);
      try (by match goal with H : truthy None = Some _ |- _ => cbn in H end).
    + rewrite buildConstMap_snoc, IH. cbn [constMapStep].
      repeat match goal with H : _ = _ |- _ => rewrite H end.
      match goal with |- context [truthy (Some ?d)] => destruct d as [|c d] end;
        cbn [truthy]; [by rewrite delete_insert_eq | by rewrite delete_insert_ne].
    + match goal with Ht : truthy _ = Some _ |- _ =>
        apply truthy_Some in Ht as [Ht Hne] end.
      rewrite buildConstMap_snoc, IH. cbn [constMapStep foldedConst op dest value].
      match goal with |- context [truthy (Some ?d)] => destruct d as [|c d] end;
        [done|]. cbn. by rewrite delete_insert_ne.
Qed.

(** X13. The constant map that [main] rebuilds from the reduced trace is the
    final environment of the fold pass restricted to the non-empty names
    that some operation of the folded output takes as an argument: on such
    a name both maps agree, and every other name has no entry in the
    constant map. *)
Theorem X13_constMap_is_used_environment (instrs : list Instr) (d : string) :
  (usedIn (pass instrs).2 d → d ≠ "" →
   buildConstMap (reduce instrs) !! d = (pass instrs).1 !! d)
  ∧ (¬ usedIn (pass instrs).2 d → buildConstMap (reduce instrs) !! d = None)
  ∧ buildConstMap (reduce instrs) !! "" = None.
Proof.
  unfold optimizeTrace.
  split; [|split].
  - intros Hu Hne. rewrite buildConstMap_filter.
    rewrite bool_decide_eq_true_2 by by apply collectUsed_spec.
    by rewrite buildConstMap_foldPass, lookup_delete_ne.
  - intros Hu. rewrite buildConstMap_filter.
    rewrite bool_decide_eq_false_2; [done|]. by rewrite collectUsed_spec.
  - rewrite buildConstMap_filter. case_bool_decide; [|done].
    by rewrite buildConstMap_foldPass, lookup_delete_eq.
Qed.

End ConstMap.

Lemma X13_constMap_is_used_environment_witness :
  buildConstMap (optimizeTrace noNumber scenario) !! "c"
  = (foldPass noNumber scenario).1 !! "c"
  ∧ buildConstMap (optimizeTrace noNumber scenario) !! "a" = None.
Proof.
  destruct (X13_constMap_is_used_environment noNumber scenario "c") as (H & _).
  destruct (X13_constMap_is_used_environment noNumber scenario "a") as (_ & H' & _).
  split.
  - apply H; [|done]. apply collectUsed_spec.
    apply (bool_decide_eq_true_1 _). vm_compute. reflexivity.
  - apply H'. rewrite <- collectUsed_spec.
    apply (bool_decide_eq_false_1 _). vm_compute. reflexivity.
Defined.

(** ** The speculative region of the printed program *)

Lemma gatingGuard_kept g : Forall (λ x, isKept x = true) (gatingGuard g).
Proof.
  unfold gatingGuard. destruct (hasGuard g); [constructor|].
  destruct (boolVar g); by repeat constructor.
Qed.

Lemma lowered_kept constMap trace low :
  lowerLoop constMap trace initLowering = Done low →
  Forall (λ x, isKept x = true) (guarded low).
Proof.
  apply (lowered_invariant constMap
           (λ _ s, Forall (λ x, isKept x = true) (guarded s)));
    try done; try (by constructor).
  - intros _ s x c _ _ H. cbn [pushGuarded guarded].
    apply Forall_app. split; [done | by repeat constructor].
  - intros _ s val a _ H. rewrite checkArg_guarded.
    apply Forall_app. split; [done|].
    destruct val as [[n | b | v]|]; by repeat constructor.
  - intros _ s H. rewrite forceBail_guarded.
    apply Forall_app. split; [done | by repeat constructor].
  - intros _ s x Hk H. cbn [pushGuarded guarded].
    apply Forall_app. split; [done | by repeat constructor].
Qed.

Lemma lowered_queue constMap trace low :
  lowerLoop constMap trace initLowering = Done low →
  Forall (λ x, isPrint x = true ∧ x ∈ trace) (postCommitPrints low).
Proof.
  intros Hrun.
  enough (H : Forall (λ x, isPrint x = true ∧ x ∈ reached trace)
                (postCommitPrints low)).
  { eapply Forall_impl; [exact H|]. intros x [Hp Hx]. split; [done|].
    by apply reached_elem. }
  revert Hrun.
  apply (lowered_invariant constMap
           (λ pre s, Forall (λ x, isPrint x = true ∧ x ∈ pre) (postCommitPrints s)));
    try (by constructor);
    try (intros; cbn [pushGuarded postCommitPrints]; eapply Forall_impl; [eassumption|];
         intros y [Hp Hy]; split; [done|]; apply elem_of_app; by left).
  - done.
  - done.
  - intros pre s x Hx _ H. cbn [queuePrint postCommitPrints].
    apply Forall_app. split.
    + eapply Forall_impl; [exact H|]. intros y [Hp Hy]. split; [done|].
      apply elem_of_app. by left.
    + constructor; [|constructor]. split.
      * cbn [isPrint]. by apply String.eqb_eq.
      * apply elem_of_app. right. apply list_elem_of_here.
Qed.

(** X14. In the program that a successful run prints, the body of [main] is
    [speculate], a region, [commit], a list of instructions, [ret], the bail
    label and the fallback; every entry of the region is an operation whose
    opcode is none of print, call, ret, jmp and br, and every instruction
    between [commit] and the [ret] is a print of the reduced trace.  No
    output is produced, and no call is made, before [commit]. *)
Theorem X14_no_effect_before_commit StringToNumber (rawTrace : list Instr)
    (prog prog' : Program) :
  main StringToNumber rawTrace prog = Done prog' →
  ∃ mainIdx newMain region prints fallback,
    findIndex isMain (functions prog) = Some mainIdx
    ∧ functions prog' !! mainIdx = Some newMain
    ∧ fn_instrs newMain
      = Some ([Op (bareOp "speculate")] ++ region ++ [Op (bareOp "commit")]
              ++ prints ++ [Op (bareOp "ret"); Label ".bail"] ++ fallback)
    ∧ (∀ x, x ∈ region →
         ∃ o, x = Op o ∧ op o ≠ "jmp" ∧ op o ≠ "call" ∧ op o ≠ "ret"
              ∧ op o ≠ "br" ∧ op o ≠ "print")
    ∧ (∀ x, x ∈ prints →
         x ∈ optimizeTrace StringToNumber rawTrace
         ∧ ∃ o, x = Op o ∧ op o = "print").
Proof.
  intros Hm. apply main_Done_inv in Hm
    as (low & mainIdx & origMain & body & _ & Hl & Hf & Ho & Hb & Hp).
  exists mainIdx,
    (withInstrs origMain (newInstrs (guarded low) (postCommitPrints low) body)),
    (guarded low ++ gatingGuard (guarded low)), (postCommitPrints low),
    (fallbackInstrs body).
  split; [done|]. split.
  { rewrite Hp. apply list_lookup_insert_eq. by eapply lookup_lt_Some. }
  split.
  { cbn [withInstrs fn_instrs]. unfold newInstrs. by rewrite <- !app_assoc. }
  split.
  - intros x Hx. apply isKept_spec.
    pose proof (lowered_kept _ _ _ Hl) as Hk.
    pose proof (gatingGuard_kept (guarded low)) as Hg.
    rewrite Forall_forall in Hk, Hg.
    apply elem_of_app in Hx as [Hx | Hx]; [by apply Hk | by apply Hg].
  - intros x Hx. pose proof (lowered_queue _ _ _ Hl) as Hq.
    rewrite Forall_forall in Hq. destruct (Hq x Hx) as [Hpr Hin].
    split; [done|]. destruct x as [l | o]; [done|].
    exists o. split; [done | by apply String.eqb_eq].
Qed.

Lemma X14_no_effect_before_commit_witness :
  ∃ mainIdx newMain region prints fallback,
    findIndex isMain (functions sampleProgram) = Some mainIdx
    ∧ functions sampleOutput !! mainIdx = Some newMain
    ∧ fn_instrs newMain
      = Some ([Op (bareOp "speculate")] ++ region ++ [Op (bareOp "commit")]
              ++ prints ++ [Op (bareOp "ret"); Label ".bail"] ++ fallback)
    ∧ (∀ x, x ∈ region →
         ∃ o, x = Op o ∧ op o ≠ "jmp" ∧ op o ≠ "call" ∧ op o ≠ "ret"
              ∧ op o ≠ "br" ∧ op o ≠ "print")
    ∧ (∀ x, x ∈ prints →
         x ∈ optimizeTrace noNumber scenario
         ∧ ∃ o, x = Op o ∧ op o = "print").
Proof.
  exact (X14_no_effect_before_commit noNumber scenario sampleProgram sampleOutput
           (sample_run noNumber)).
Defined.

(** ** The printer *)

Lemma append_assoc (a b c : string) : (a +:+ b) +:+ c = a +:+ b +:+ c.
Proof.
  induction a as [|x a IH]; [done|].
  change (String x ((a +:+ b) +:+ c) = String x (a +:+ b +:+ c)). by rewrite IH.
Qed.

Lemma append_nil_r (a : string) : a +:+ "" = a.
Proof.
  induction a as [|x a IH]; [done|].
  change (String x (a +:+ "") = String x a). by rewrite IH.
Qed.

(** What a successful run has checked of the input program. *)
Lemma main_Done_all_instrs StringToNumber rawTrace prog prog' :
  main StringToNumber rawTrace prog = Done prog' →
  ∀ f, f ∈ functions prog → is_Some (fn_instrs f).
Proof.
  unfold main. fold isMain. destruct rawTrace as [|x tr]; [done|].
  destruct (lowerLoop _ _ _) as [low | |]; [|done..].
  destruct (findIndex isMain (functions prog)) as [mainIdx|] eqn:Hf; [|done].
  destruct (functions prog !! mainIdx) as [origMain|] eqn:Ho; [|done].
  destruct (fn_instrs origMain) as [body|] eqn:Hb; [|done].
  destruct (validateBrilProgram _) eqn:Hv; [|done].
  intros _ f [j Hj]%list_elem_of_lookup.
  destruct (decide (j = mainIdx)) as [-> | Hne].
  - rewrite Ho in Hj. injection Hj as <-. by rewrite Hb.
  - by apply (proj1 (validate_insert _ _ _ _ Ho) Hv j f).
Qed.

(** ** The comparison built for a printed argument *)

(** A printed argument with a recorded value gets its three instructions,
    whatever the other arguments of the print are. *)
Lemma printArgs_checked constMap xs st b a val :
  a ∈ xs → constMap !! a = Some val →
  ∃ l1 n l2,
    guarded (fold_left (printArgStep constMap) xs (st, b)).1
    = guarded st ++ l1
      ++ [Op (expConst ("_spec_exp_" +:+ showNat n) val);
          Op (cmpInstr val ("_spec_cmp_" +:+ showNat (S n)) a
                ("_spec_exp_" +:+ showNat n));
          Op (guardOn ("_spec_cmp_" +:+ showNat (S n)))]
      ++ l2.
Proof.
  intros Ha Hv. revert st b.
  induction xs as [|x xs IH]; intros st b; [by apply elem_of_nil in Ha|].
  cbn [fold_left]. apply elem_of_cons in Ha as [<- | Ha].
  - rewrite (printArgStep_known _ _ _ _ _ Hv).
    destruct (printArgs_grow constMap xs (checkArg val a st) b)
      as ((new & Hg & _) & _).
    exists [], (synthCounter st), new. rewrite Hg. cbn [checkArg guarded app].
    by rewrite <- app_assoc.
  - destruct (constMap !! x) as [v|] eqn:Hx.
    + rewrite (printArgStep_known _ _ _ _ _ Hx).
      destruct (IH Ha (checkArg v x st) b) as (l1 & n & l2 & ->).
      exists (argCheck v x (synthCounter st) ++ l1), n, l2.
      by rewrite checkArg_guarded, <- !app_assoc.
    + rewrite (printArgStep_unknown _ _ _ _ Hx).
      destruct (IH Ha (forceBail st) true) as (l1 & n & l2 & ->).
      exists (bailPair (synthCounter st) ++ l1), n, l2.
      by rewrite forceBail_guarded, <- !app_assoc.
Qed.

Lemma reached_elem_split trace x :
  x ∈ reached trace →
  ∃ pre post, trace = pre ++ x :: post
              ∧ Forall (λ y, isStop y = false) pre ∧ isStop x = false.
Proof.
  induction trace as [|y trace IH]; cbn [reached]; [by intros ?%elem_of_nil|].
  destruct (isStop y) eqn:Hy; [by intros ?%elem_of_nil|].
  intros [-> | Hin]%elem_of_cons.
  - exists [], trace. by repeat split.
  - destruct (IH Hin) as (pre & post & -> & Hpre & Hx).
    exists (y :: pre), post. split; [done|]. split; [by constructor | done].
Qed.

(** When the loop ends normally, the guarded sequence holds the comparison
    of every recorded argument of every print that stands before the first
    call or ret. *)
Lemma lowerLoop_print_known constMap trace st low i a val :
  lowerLoop constMap trace st = Done low →
  Op i ∈ reached trace → op i = "print" →
  a ∈ printedArgs i → constMap !! a = Some val →
  ∃ n, Op (cmpInstr val ("_spec_cmp_" +:+ showNat (S n)) a
             ("_spec_exp_" +:+ showNat n)) ∈ guarded low.
Proof.
  intros Hrun Hin Hp Ha Hv.
  destruct (reached_elem_split _ _ Hin) as (pre & post & -> & Hpre & Hx).
  rewrite lowerLoop_app in Hrun by done.
  destruct (lowerLoop constMap pre st) as [st1 | |]; [|done..].
  rewrite lowerLoop_cons in Hrun by done.
  assert (Hone : lowerLoop constMap [Op i] st1 = Done (lowerPrint constMap i st1)).
  { cbn [lowerLoop]. by rewrite Hp. }
  rewrite Hone in Hrun.
  destruct (lowerLoop_Done_grow _ _ _ _ Hrun) as ((g & Hg & _) & _).
  rewrite (lowerPrint_cases _ _ _ Hp) in Hg.
  destruct (printArgs_checked constMap (printedArgs i) st1 false a val Ha Hv)
    as (l1 & n & l2 & Hk).
  exists n. rewrite Hg.
  assert (Hq : guarded (if isQueued constMap (Op i)
                        then queuePrint (fold_left (printArgStep constMap)
                                           (printedArgs i) (st1, false)).1 i
                        else (fold_left (printArgStep constMap)
                                (printedArgs i) (st1, false)).1)
               = guarded (fold_left (printArgStep constMap)
                            (printedArgs i) (st1, false)).1)
    by by destruct (isQueued constMap (Op i)).
  rewrite Hq, Hk. rewrite !elem_of_app, !elem_of_cons. tauto.
Qed.

Section PrinterFacts.

Variable numberToString : float → string.

Local Abbreviation itext := (instrText numberToString).
Local Abbreviation text := (instrsText numberToString).
Local Abbreviation fstep := (funcStep numberToString).
Local Abbreviation print := (brilToText numberToString).

Lemma instrsText_from t instrs : text t instrs = t +:+ text "" instrs.
Proof.
  unfold instrsText. revert t.
  induction instrs as [|x instrs IH]; intros t; cbn [fold_left].
  - by rewrite append_nil_r.
  - rewrite IH, (IH ("" +:+ _)). cbn [String.append]. by rewrite append_assoc.
Qed.

(** The text of a list of instructions is the texts of its parts, one
    after the other. *)
Lemma instrsText_app l1 l2 : text "" (l1 ++ l2) = text "" l1 +:+ text "" l2.
Proof.
  unfold instrsText at 1. rewrite fold_left_app.
  fold (text "" l1). fold (text (text "" l1) l2). apply instrsText_from.
Qed.

Lemma funcStep_Done t func instrs :
  fn_instrs func = Some instrs →
  fstep (Done t) func
  = Done (t +:+ headerText func +:+ " {" +:+ nl +:+ text "" instrs
          +:+ "}" +:+ nl +:+ nl).
Proof.
  intros H. cbn [funcStep]. rewrite H, instrsText_from.
  by rewrite !append_assoc.
Qed.

Lemma funcsText fs :
  Forall (λ f, is_Some (fn_instrs f)) fs →
  ∃ s, ∀ t, fold_left fstep fs (Done t) = Done (t +:+ s).
Proof.
  induction 1 as [|f fs [body Hb] _ (s & IH)].
  - exists "". intros t. cbn. by rewrite append_nil_r.
  - eexists. intros t. cbn [fold_left]. rewrite (funcStep_Done _ _ _ Hb), IH.
    rewrite !append_assoc. reflexivity.
Qed.

(** X15. The text printed for the result of a successful run is the text
    that the printer gives for the input program with the fast path and the
    bail label spliced in at the head of the body of [main]: what precedes
    [main], its header, the text of its original instructions and what
    follows [main] are the same, character for character; a line [ret;] is
    added at the end of the body when the original body does not end in a
    ret. *)
Theorem X15_printed_fallback_verbatim StringToNumber (rawTrace : list Instr)
    (prog prog' : Program) :
  main StringToNumber rawTrace prog = Done prog' →
  ∃ origMain body before fast after,
    origMain ∈ functions prog
    ∧ fn_name origMain = "main"
    ∧ fn_instrs origMain = Some body
    ∧ print prog
      = Done (before +:+ headerText origMain +:+ " {" +:+ nl
              +:+ text "" body
              +:+ "}" +:+ nl +:+ nl +:+ after)
    ∧ print prog'
      = Done (before +:+ headerText origMain +:+ " {" +:+ nl
              +:+ fast +:+ ".bail:" +:+ nl +:+ "  nop;" +:+ nl
              +:+ text "" body
              +:+ (if endsInRet body then "" else "  ret;" +:+ nl)
              +:+ "}" +:+ nl +:+ nl +:+ after).
Proof.
  intros Hm. pose proof (main_Done_all_instrs _ _ _ _ Hm) as Hall.
  apply main_Done_inv in Hm
    as (low & mainIdx & origMain & body & _ & Hl & Hf & Ho & Hb & Hp).
  destruct prog' as [fs']. cbn [functions] in Hp. subst fs'.
  destruct (findIndex_Some _ _ _ Hf) as (f & Hf1 & Hname & _).
  rewrite Ho in Hf1. injection Hf1 as <-. apply isMain_spec in Hname.
  pose proof (take_drop_middle _ _ _ Ho) as Hsplit.
  assert (Hall' : Forall (λ f, is_Some (fn_instrs f)) (functions prog)).
  { by apply Forall_forall. }
  rewrite <- Hsplit in Hall'. apply Forall_app in Hall' as [H1 H2].
  apply Forall_cons in H2 as [_ H2].
  destruct (funcsText _ H1) as (before & Hbefore).
  destruct (funcsText _ H2) as (after & Hafter).
  exists origMain, body, before,
    (text "" (fastPath (guarded low) (postCommitPrints low))), after.
  split; [by eapply list_elem_of_lookup_2|]. split; [done|]. split; [done|].
  split.
  - unfold brilToText. rewrite <- Hsplit, fold_left_app. cbn [fold_left].
    rewrite Hbefore. cbn [String.append].
    rewrite (funcStep_Done _ _ _ Hb), Hafter. by rewrite !append_assoc.
  - unfold brilToText. cbn [functions].
    assert (Hlen : (mainIdx < length (functions prog))%nat)
      by by eapply lookup_lt_Some.
    rewrite <- Hsplit at 1. rewrite insert_app_r_alt by (rewrite length_take; lia).
    rewrite length_take, Nat.min_l, Nat.sub_diag by lia. cbn [insert list_insert].
    rewrite fold_left_app. cbn [fold_left]. rewrite Hbefore. cbn [String.append].
    rewrite (funcStep_Done _ _ (newInstrs (guarded low) (postCommitPrints low) body))
      by done.
    rewrite Hafter. change (headerText (withInstrs origMain _))
      with (headerText origMain).
    rewrite newInstrs_fastPath, instrsText_app.
    change (Label ".bail" :: fallbackInstrs body)
      with ([Label ".bail"] ++ fallbackInstrs body).
    rewrite instrsText_app. unfold fallbackInstrs.
    destruct (endsInRet body).
    + cbn [instrsText fold_left instrText dotted String.prefix String.append].
      by rewrite !append_assoc.
    + rewrite instrsText_app.
      cbn [instrsText fold_left instrText dotted String.prefix String.append
             destText bareOp dest truthy op bodyText].
      by rewrite !append_assoc.
Qed.

(** The text of a list holds the text of each of its entries. *)
Lemma instrsText_elem x l :
  x ∈ l → ∃ before after, text "" l = before +:+ itext x +:+ after.
Proof.
  intros (l1 & l2 & ->)%list_elem_of_split.
  exists (text "" l1), (text "" l2).
  change (x :: l2) with ([x] ++ l2). rewrite !instrsText_app.
  cbn [instrsText fold_left String.append]. reflexivity.
Qed.

(** The line printed for a comparison that [main] builds. *)
Lemma cmpInstr_text val n a :
  itext (Op (cmpInstr val ("_spec_cmp_" +:+ showNat (S n)) a
               ("_spec_exp_" +:+ showNat n)))
  = "  _spec_cmp_" +:+ showNat (S n) +:+ ": undefined = "
    +:+ (if String.eqb (typeof val) "string" then "ceq" else "eq")
    +:+ " " +:+ a +:+ " _spec_exp_" +:+ showNat n +:+ ";" +:+ nl.
Proof.
  unfold cmpInstr. cbn [instrText destText dest type tyText op].
  cbn [String.append truthy].
  assert (Hb : ∀ o, String.eqb o "call" = false → String.eqb o "ret" = false →
               String.eqb o "const" = false →
               bodyText numberToString
                 {| op := o; dest := Some ("_spec_cmp_" +:+ showNat (S n));
                    type := None; args := Some [a; "_spec_exp_" +:+ showNat n];
                    value := None; labels := None; funcs := None |}
               = " " +:+ a +:+ " " +:+ "_spec_exp_" +:+ showNat n).
  { intros o H1 H2 H3. unfold bodyText. cbn [op args labels joined fmap option_fmap
      option_map String.concat]. rewrite H1, H2, H3.
    cbn [List.filter nonEmpty].
    assert (nonEmpty (a +:+ " " +:+ "_spec_exp_" +:+ showNat n) = true) as ->
      by by destruct a.
    reflexivity. }
  assert (Hd : ∀ o, destText
                 {| op := o; dest := Some ("_spec_cmp_" +:+ showNat (S n));
                    type := None; args := Some [a; "_spec_exp_" +:+ showNat n];
                    value := None; labels := None; funcs := None |}
               = "_spec_cmp_" +:+ showNat (S n) +:+ ": undefined = ")
    by reflexivity.
  destruct (String.eqb (typeof val) "string"); rewrite Hb, Hd by done;
    rewrite !append_assoc; reflexivity.
Qed.

(** The text printed for the result of a successful run holds the text of
    the guarded sequence. *)
Lemma main_Done_text StringToNumber rawTrace prog prog' :
  main StringToNumber rawTrace prog = Done prog' →
  ∃ low before after,
    lowerLoop (buildConstMap (optimizeTrace StringToNumber rawTrace))
      (optimizeTrace StringToNumber rawTrace) initLowering = Done low
    ∧ print prog' = Done (before +:+ text "" (guarded low) +:+ after).
Proof.
  intros Hm. pose proof (main_Done_all_instrs _ _ _ _ Hm) as Hall.
  apply main_Done_inv in Hm
    as (low & mainIdx & origMain & body & _ & Hl & Hf & Ho & Hb & Hp).
  destruct prog' as [fs']. cbn [functions] in Hp. subst fs'.
  pose proof (take_drop_middle _ _ _ Ho) as Hsplit.
  assert (Hall' : Forall (λ f, is_Some (fn_instrs f)) (functions prog)).
  { by apply Forall_forall. }
  rewrite <- Hsplit in Hall'. apply Forall_app in Hall' as [H1 H2].
  apply Forall_cons in H2 as [_ H2].
  destruct (funcsText _ H1) as (before & Hbefore).
  destruct (funcsText _ H2) as (after & Hafter).
  exists low,
    (before +:+ headerText origMain +:+ " {" +:+ nl
     +:+ text "" [Op (bareOp "speculate")]),
    (text "" (gatingGuard (guarded low) ++ [Op (bareOp "commit")]
              ++ postCommitPrints low ++ [Op (bareOp "ret")]
              ++ Label ".bail" :: fallbackInstrs body)
     +:+ "}" +:+ nl +:+ nl +:+ after).
  split; [done|].
  unfold brilToText. cbn [functions].
  assert (Hlen : (mainIdx < length (functions prog))%nat)
    by by eapply lookup_lt_Some.
  rewrite <- Hsplit at 1. rewrite insert_app_r_alt by (rewrite length_take; lia).
  rewrite length_take, Nat.min_l, Nat.sub_diag by lia. cbn [insert list_insert].
  rewrite fold_left_app. cbn [fold_left]. rewrite Hbefore. cbn [String.append].
  rewrite (funcStep_Done _ _ (newInstrs (guarded low) (postCommitPrints low) body))
    by done.
  rewrite Hafter. change (headerText (withInstrs origMain _))
    with (headerText origMain).
  rewrite newInstrs_fastPath. unfold fastPath.
  rewrite <- !app_assoc.
  rewrite (instrsText_app [Op (bareOp "speculate")]),
    (instrsText_app (guarded low)).
  by rewrite !append_assoc.
Qed.

(** X16. In every successful run, each argument with a recorded value of
    each print that stands before the first call or ret of the reduced trace
    has its comparison in the guarded sequence; that comparison is built
    without a type, and the printer writes the missing type as the word
    [undefined]: the text of the output holds the line
    [_spec_cmp_N: undefined = eq a _spec_exp_M;], with [ceq] when the
    recorded value is a string. *)
Theorem X16_comparison_printed_without_type StringToNumber
    (rawTrace : list Instr) (prog prog' : Program) (i : Operation) (a : string)
    (val : option Value) :
  main StringToNumber rawTrace prog = Done prog' →
  Op i ∈ reached (optimizeTrace StringToNumber rawTrace) →
  op i = "print" →
  a ∈ printedArgs i →
  buildConstMap (optimizeTrace StringToNumber rawTrace) !! a = Some val →
  ∃ low n before after,
    lowerLoop (buildConstMap (optimizeTrace StringToNumber rawTrace))
      (optimizeTrace StringToNumber rawTrace) initLowering = Done low
    ∧ Op (cmpInstr val ("_spec_cmp_" +:+ showNat (S n)) a
            ("_spec_exp_" +:+ showNat n)) ∈ guarded low
    ∧ print prog'
      = Done (before
              +:+ "  _spec_cmp_" +:+ showNat (S n) +:+ ": undefined = "
              +:+ (if String.eqb (typeof val) "string" then "ceq" else "eq")
              +:+ " " +:+ a +:+ " _spec_exp_" +:+ showNat n +:+ ";" +:+ nl
              +:+ after).
Proof.
  intros Hm Hin Hp Ha Hv.
  destruct (main_Done_text _ _ _ _ Hm) as (low & b1 & a1 & Hl & Ht).
  destruct (lowerLoop_print_known _ _ _ _ _ _ _ Hl Hin Hp Ha Hv) as (n & Hc).
  destruct (instrsText_elem _ _ Hc) as (b2 & a2 & Hg).
  exists low, n, (b1 +:+ b2), (a2 +:+ a1). split; [done|]. split; [done|].
  rewrite Ht, Hg, cmpInstr_text. by rewrite !append_assoc.
Qed.

End PrinterFacts.

Lemma X15_printed_fallback_verbatim_witness :
  ∃ origMain body before fast after,
    origMain ∈ functions sampleProgram
    ∧ fn_name origMain = "main"
    ∧ fn_instrs origMain = Some body
    ∧ brilToText (λ _, "7") sampleProgram
      = Done (before +:+ headerText origMain +:+ " {" +:+ nl
              +:+ instrsText (λ _, "7") "" body
              +:+ "}" +:+ nl +:+ nl +:+ after)
    ∧ brilToText (λ _, "7") sampleOutput
      = Done (before +:+ headerText origMain +:+ " {" +:+ nl
              +:+ fast +:+ ".bail:" +:+ nl +:+ "  nop;" +:+ nl
              +:+ instrsText (λ _, "7") "" body
              +:+ (if endsInRet body then "" else "  ret;" +:+ nl)
              +:+ "}" +:+ nl +:+ nl +:+ after).
Proof.
  exact (X15_printed_fallback_verbatim (λ _, "7") noNumber scenario sampleProgram
           sampleOutput (sample_run noNumber)).
Defined.

Lemma X16_comparison_printed_without_type_witness :
  ∃ low n before after,
    lowerLoop (buildConstMap (optimizeTrace noNumber scenario))
      (optimizeTrace noNumber scenario) initLowering = Done low
    ∧ Op (cmpInstr (Some (VNum 7)) ("_spec_cmp_" +:+ showNat (S n)) "c"
            ("_spec_exp_" +:+ showNat n)) ∈ guarded low
    ∧ brilToText (λ _, "7") sampleOutput
      = Done (before
              +:+ "  _spec_cmp_" +:+ showNat (S n) +:+ ": undefined = "
              +:+ (if String.eqb (typeof (Some (VNum 7))) "string"
                   then "ceq" else "eq")
              +:+ " " +:+ "c" +:+ " _spec_exp_" +:+ showNat n +:+ ";" +:+ nl
              +:+ after).
Proof.
  apply (X16_comparison_printed_without_type (λ _, "7") noNumber scenario
           sampleProgram sampleOutput
           {| op := "print"; dest := None; type := None; args := Some ["c"];
              value := None; labels := None; funcs := None |}).
  - apply sample_run.
  - assert (reached (optimizeTrace noNumber scenario) = [constI "c" 7; printI ["c"]])
      as -> by (vm_compute; reflexivity).
    apply elem_of_cons. right. apply list_elem_of_here.
  - reflexivity.
  - apply list_elem_of_here.
  - vm_compute. reflexivity.
Defined.
